(** * freeREA: the evolutionary engine of [commons/genetics.py]

    A shallow embedding of the classes [Individual], [Genetic] and
    [Population] and of [generate_population].

    Python objects are mutable and are passed by reference, so the
    embedding keeps an object store: individuals and populations live in
    two arrays of the [world] and are named by their index.  Every
    method is a computation in a state-and-exception monad over the
    [world].  An exception leaves the store as it was when it was raised;
    whatever had been written before stays written.

    Numbers (Python [int] and [float]) are rationals.  The process-wide
    generator of [numpy.random] is a component of the [world]; its raw
    outputs are arbitrary integers, reduced to the requested range. *)

From Stdlib Require Import ZArith QArith Qabs.
From stdpp Require Import gmap strings list fin_maps sorting.

Local Open Scope string_scope.

(** ** Exceptions and the monad *)

Inductive exn : Type :=
| ValueError (msg : string)
| TypeError (msg : string)
| AttributeError
| IndexError
| ZeroDivisionError
| UnboundLocalError
| RecursionError
| NoSuchObject.  (* a reference outside the store: never a Python outcome *)

Inductive result (A : Type) : Type :=
| Ok (a : A)
| Raise (e : exn).
Arguments Ok {A} a.
Arguments Raise {A} e.

Definition is_ok {A} (r : result A) : bool :=
  match r with Ok _ => true | Raise _ => false end.

(** [raises_ValueError r]: the call ended in a [ValueError], the class the
    module raises for every failed validation. *)
Definition raises_ValueError {A} (r : result A) : Prop :=
  ∃ msg, r = Raise (ValueError msg).

Module St.
Definition M (S A : Type) : Type := S → result A * S.

Definition ret {S A} (a : A) : M S A := λ s, (Ok a, s).
Definition raise {S A} (e : exn) : M S A := λ s, (Raise e, s).
Definition bind {S A B} (m : M S A) (k : A → M S B) : M S B :=
  λ s, match m s with
       | (Ok a, s') => k a s'
       | (Raise e, s') => (Raise e, s')
       end.
Definition get {S} : M S S := λ s, (Ok s, s).
Definition modify {S} (f : S → S) : M S unit := λ s, (Ok tt, f s).
Definition lift {S A} (r : result A) : M S A := λ s, (r, s).

(** [try: m except AttributeError: handler] *)
Definition try_except_AttributeError {S A} (m handler : M S A) : M S A :=
  λ s, match m s with
       | (Raise AttributeError, s') => handler s'
       | other => other
       end.

(** [for x in xs: body x] *)
Fixpoint for_each {S A} (xs : list A) (body : A → M S unit) : M S unit :=
  match xs with
  | [] => ret tt
  | x :: xs' => bind (body x) (λ _, for_each xs' body)
  end.

(** [[f x for x in xs]] and [list(map(f, xs))] *)
Fixpoint map_each {S A B} (f : A → M S B) (xs : list A) : M S (list B) :=
  match xs with
  | [] => ret []
  | x :: xs' => bind (f x) (λ y, bind (map_each f xs') (λ ys, ret (y :: ys)))
  end.
End St.
Import St.

Notation "x <- m ;; k" := (bind m (λ x, k))
  (at level 20, m at level 99, k at level 200, only parsing).
Notation "'run' m ;; k" := (bind m (λ _, k))
  (at level 20, m at level 99, k at level 200, only parsing).

(** ** Data *)

(** A slot of a genotype list.  Genes are strings; [mutate] stores the
    one-element array returned by [np.random.choice] in the slot. *)
Inductive gene : Type :=
| Sym (s : string)
| Arr (items : list string).

Definition ref := nat.

(** The argument [a] of [np.random.choice], before [np.array(a)]. *)
Inductive array_like (A : Type) : Type :=
| PyList (l : list A)
| PySet (s : gset string).
Arguments PyList {A} l.
Arguments PySet {A} s.

(** What [Population._population] can hold: [__init__] stores its
    [init_population] argument, of type [Union[bool, Iterable]]. *)
Inductive pop_value : Type :=
| Flag (b : bool)
| Members (l : list ref).

(** Truth value of an [init_population] argument. *)
Definition truthy (v : pop_value) : bool :=
  match v with
  | Flag b => b
  | Members [] => false
  | Members (_ :: _) => true
  end.

Record Genetic : Type := mkGenetic {
  genome : gset string;
  strategy : string;
  tournament_size : Z;
  cross_probability : Q
}.

(** [Genetic.__init__]: [set(genome)]. *)
Definition Genetic_init (genome : list string) (strategy : string)
    (tournament_size : Z) (cross_p : Q) : Genetic :=
  mkGenetic (list_to_set genome) strategy tournament_size cross_p.

(** The collaborators the module imports and does not define
    ([commons/utils.py], [commons/nats_interface.py], xautodl). *)
Class Collaborators : Type := {
  Net : Type;        (* TinyNetwork *)
  Interface : Type;  (* NATSInterface *)
  NATSInterface : string → string → Interface;
  get_project_root : string;
  genotype_is_valid : list gene → bool;
  genotype_to_architecture : list gene → string;
  architecture_to_genotype : string → list gene;
  query_with_architecture : Interface → string → result Net;
  generate_random_samples : Interface → Z → result (list Net * list string)
}.

(** The generator behind [np.random]: a state and its next raw output. *)
Class Generator : Type := {
  G : Type;
  next : G → Z * G
}.

Section Engine.

Context {collaborators : Collaborators} {generator : Generator}.

Definition NATSPATH : string :=
  get_project_root +:+ "/archive/NATS-tss-v1_0-3ffb9-simple/".

Record Individual : Type := mkIndividual {
  scores : gmap string Q;
  net : Net;
  _genotype : list gene;
  age : Q;
  _fitness : Q;
  _rank : Q;
  interface : Interface;
  attached : gmap string Q  (* numeric attributes set on the object later *)
}.

Record Population : Type := mkPopulation {
  space : Interface;
  individual : Net → list gene → Individual;
  _population : pop_value;
  extremes : gmap string Q  (* the attributes min_<score> and max_<score> *)
}.

Record world : Type := mkWorld {
  individuals : list Individual;
  populations : list Population;
  rng : G
}.

Definition Py (A : Type) : Type := M world A.

(** *** The store *)

Definition load (r : ref) : Py Individual :=
  λ w, match individuals w !! r with
       | Some i => (Ok i, w)
       | None => (Raise NoSuchObject, w)
       end.

Definition store (r : ref) (i : Individual) : Py unit :=
  modify (λ w, mkWorld (<[r := i]> (individuals w)) (populations w) (rng w)).

Definition new (i : Individual) : Py ref :=
  λ w, (Ok (length (individuals w)),
        mkWorld (individuals w ++ [i])%list (populations w) (rng w)).

(** [copy(individual)], which is [deepcopy]: a new object, equal field
    by field. *)
Definition deepcopy (r : ref) : Py ref :=
  i <- load r ;; new i.

(** *** numpy.random *)

Definition draw : Py Z :=
  λ w, let '(z, g) := next (rng w) in
       (Ok z, mkWorld (individuals w) (populations w) g).

(** [np.random.randint(low, high)]: an integer in [[low, high)]. *)
Definition np_random_randint (low high : Z) : Py Z :=
  if (high <=? low)%Z then raise (ValueError "low >= high")
  else z <- draw ;; ret (low + z mod (high - low))%Z.

(** [np.random.random()]: a float in [[0, 1)]. *)
Definition np_random_random : Py Q :=
  z <- draw ;; ret (Qmake (z mod 2 ^ 53) (2 ^ 53)).

(** [size] independent draws of [randint(0, pop_size)]. *)
Fixpoint randint_n (pop_size : Z) (size : nat) : Py (list Z) :=
  match size with
  | O => ret []
  | S size' =>
      i <- np_random_randint 0 pop_size ;;
      rest <- randint_n pop_size size' ;;
      ret (i :: rest)
  end.

Definition take_at {A} (a : list A) (i : Z) : Py A :=
  match a !! Z.to_nat i with
  | Some x => ret x
  | None => raise IndexError
  end.

(** [np.random.choice(a=a, size=size)], with [replace=True] and no
    weights.  [np.array] turns a list into a 1-dimensional array; a set
    is not a sequence and becomes a 0-dimensional object array, which
    [choice] refuses. *)
Definition np_random_choice {A} (a : array_like A) (size : Z) : Py (list A) :=
  match a with
  | PySet _ => raise (ValueError "a must be 1-dimensional or an integer")
  | PyList l =>
      if bool_decide (l = []) && negb (size =? 0)%Z
      then raise (ValueError "'a' cannot be empty unless no samples are taken")
      else if (size <? 0)%Z
      then raise (ValueError "negative dimensions are not allowed")
      else
        idx <- randint_n (Z.of_nat (length l)) (Z.to_nat size) ;;
        map_each (take_at l) idx
  end.

(** ** Individual *)

(** [Individual.__init__] *)
Definition Individual_init (net : Net) (genotype : list gene) (age : Q)
    (dataset : string) (searchspace_interface : option Interface)
  : Individual :=
  mkIndividual ∅ net genotype age 0 0
    (match searchspace_interface with
     | None => NATSInterface NATSPATH dataset
     | Some i => i
     end) ∅.

Definition with_net (n : Net) (i : Individual) : Individual :=
  mkIndividual (scores i) n (_genotype i) (age i) (_fitness i) (_rank i)
    (interface i) (attached i).
Definition with_genotype (g : list gene) (i : Individual) : Individual :=
  mkIndividual (scores i) (net i) g (age i) (_fitness i) (_rank i)
    (interface i) (attached i).
Definition with_age (a : Q) (i : Individual) : Individual :=
  mkIndividual (scores i) (net i) (_genotype i) a (_fitness i) (_rank i)
    (interface i) (attached i).
Definition with_fitness (f : Q) (i : Individual) : Individual :=
  mkIndividual (scores i) (net i) (_genotype i) (age i) f (_rank i)
    (interface i) (attached i).
Definition with_rank (k : Q) (i : Individual) : Individual :=
  mkIndividual (scores i) (net i) (_genotype i) (age i) (_fitness i) k
    (interface i) (attached i).
Definition with_attached (name : string) (v : Q) (i : Individual)
  : Individual :=
  mkIndividual (scores i) (net i) (_genotype i) (age i) (_fitness i)
    (_rank i) (interface i) (<[name := v]> (attached i)).

(** [Individual.update_net] *)
Definition update_net (self : ref) : Py unit :=
  i <- load self ;;
  let genotype_arch_str := genotype_to_architecture (_genotype i) in
  n <- lift (query_with_architecture (interface i) genotype_arch_str) ;;
  store self (with_net n i).

(** The property [genotype]: a getter and no setter. *)
Definition genotype (self : ref) : Py (list gene) :=
  i <- load self ;; ret (_genotype i).

(** [@genotype.setter def update_genotype]: the decorator returns a
    property with the getter of [genotype] and this function as its
    setter, and the class binds it to the name [update_genotype].
    Reading [obj.update_genotype] runs the getter. *)
Definition update_genotype_get (self : ref) : Py (list gene) :=
  genotype self.

(** Assigning [obj.update_genotype = new_genotype] runs the setter.
    On an invalid genotype the body builds a [ValueError] and drops it:
    the statement has no [raise]. *)
Definition update_genotype (self : ref) (new_genotype : list gene)
  : Py unit :=
  dropped <- (if negb (genotype_is_valid new_genotype)
              then ret (Some (ValueError "genotype is not a valid replacement!"))
              else ret None) ;;
  i <- load self ;;
  run store self (with_genotype new_genotype i) ;;
  update_net self.

(** Calling [obj.update_genotype(new_genotype)]: the callee is what the
    property reads, a list; then the argument is evaluated; then the
    call fails. *)
Definition call_update_genotype {A} (self : ref)
    (new_genotype : Py (list gene)) : Py A :=
  callee <- update_genotype_get self ;;
  arg <- new_genotype ;;
  raise (TypeError "'list' object is not callable").

(** The properties [fitness] and [rank]. *)
Definition fitness (self : ref) : Py Q :=
  i <- load self ;; ret (_fitness i).
Definition rank (self : ref) : Py Q :=
  i <- load self ;; ret (_rank i).


(** [Individual.update_ranking] *)
Definition Individual_update_ranking (self : ref) (new_rank : Q)
  : Py unit :=
  i <- load self ;;
  store self (with_rank new_rank i).

(** How a name resolves on an [Individual] that is read as a number. *)
Inductive attribute : Type :=
| ReadOnlyProperty (get : Individual → Q)
| Field (get : Individual → Q) (set : Q → Individual → Individual)
| NotANumber
| Dynamic.

Definition resolve (name : string) : attribute :=
  if String.eqb name "fitness" then ReadOnlyProperty _fitness
  else if String.eqb name "rank" then ReadOnlyProperty _rank
  else if String.eqb name "_fitness" then Field _fitness with_fitness
  else if String.eqb name "_rank" then Field _rank with_rank
  else if String.eqb name "age" then Field age with_age
  else if bool_decide (name ∈ ["genotype"; "update_genotype"; "_genotype";
                               "net"; "scores"; "interface"; "update_net";
                               "update_fitness"; "update_ranking"])
  then NotANumber
  else Dynamic.

(** [getattr(individual, score)], for a score that is then compared and
    subtracted.  An attribute that holds no number fails with a
    [TypeError] where it is first used as one; the model raises it at
    the read. *)
Definition read_attribute (i : Individual) (score : string) : result Q :=
  match resolve score with
  | ReadOnlyProperty get | Field get _ => Ok (get i)
  | NotANumber => Raise (TypeError "unsupported operand type(s)")
  | Dynamic =>
      match attached i !! score with
      | Some v => Ok v
      | None => Raise AttributeError
      end
  end.

Definition getattr (individual : ref) (score : string) : Py Q :=
  i <- load individual ;;
  lift (read_attribute i score).

(** [setattr(individual, score, value)].  A property without a setter
    refuses the assignment with an [AttributeError]. *)
Definition setattr (individual : ref) (score : string) (value : Q)
  : Py unit :=
  i <- load individual ;;
  match resolve score with
  | ReadOnlyProperty _ => raise AttributeError
  | Field _ set => store individual (set value i)
  | NotANumber => raise (TypeError "unsupported operand type(s)")
  | Dynamic => store individual (with_attached score value i)
  end.

(** ** Genetic *)

(** [Genetic.tournament] *)
Definition tournament (self : Genetic) (population : list ref)
  : Py (list ref) :=
  np_random_choice (PyList population) (tournament_size self).

(** What iterating a gene yields: [set.difference] takes an iterable,
    and a string iterates over its characters. *)
Definition iterate_gene (g : gene) : list string :=
  match g with
  | Sym s => (λ c, String c EmptyString) <$> String.list_ascii_of_string s
  | Arr items => items
  end.

(** One round of the loop of [mutate].  [mutant_genotype] is the list
    the mutant holds, not a copy of it: the item assignment writes into
    the mutant. *)
Definition mutate_round (self : Genetic) (mutant_individual : ref)
  : Py (list gene) :=
  mutant_genotype <- genotype mutant_individual ;;
  held <- genotype mutant_individual ;;
  mutant_locus <- np_random_randint 0 (Z.of_nat (length held)) ;;
  mutant_gene <- take_at mutant_genotype mutant_locus ;;
  let mutations := genome self ∖ list_to_set (iterate_gene mutant_gene) in
  chosen <- np_random_choice (A := string) (PySet mutations) 1 ;;
  let written := <[Z.to_nat mutant_locus := Arr chosen]> mutant_genotype in
  i <- load mutant_individual ;;
  run store mutant_individual (with_genotype written i) ;;
  ret written.

(** [for _ in range(n_loci)]; the local [mutant_genotype] is unbound
    until the first round has run. *)
Fixpoint mutate_rounds (self : Genetic) (mutant_individual : ref)
    (rounds : nat) (mutant_genotype : option (list gene))
  : Py (option (list gene)) :=
  match rounds with
  | O => ret mutant_genotype
  | S rounds' =>
      g <- mutate_round self mutant_individual ;;
      mutate_rounds self mutant_individual rounds' (Some g)
  end.

Definition local {A} (v : option A) : Py A :=
  match v with
  | Some a => ret a
  | None => raise UnboundLocalError
  end.

(** [Genetic.mutate] *)
Definition mutate (self : Genetic) (individual : ref) (n_loci : Z)
  : Py ref :=
  mutant_individual <- deepcopy individual ;;
  mutant_genotype <-
    mutate_rounds self mutant_individual (Z.to_nat n_loci) None ;;
  call_update_genotype mutant_individual (local mutant_genotype).

(** [individual[locus:]]: the class [Individual] defines no
    [__getitem__]. *)
Definition subscript_individual (individual : ref) (start : Z)
  : Py (list gene) :=
  raise (TypeError "'Individual' object is not subscriptable").

Definition Qltb (a b : Q) : bool := negb (Qle_bool b a).

(** [Genetic.recombine] *)
Definition recombine (self : Genetic) (individuals : list ref)
    (n_parts : Z) : Py ref :=
  if negb (length individuals =? 2)%nat
  then raise (ValueError "Number of individuals cannot be different from 2!")
  else
    match individuals with
    | [individual1; individual2] =>
        recombinant <- deepcopy individual1 ;;
        g1 <- genotype individual1 ;;
        recombination_locus <-
          np_random_randint 0 (Z.of_nat (length g1)) ;;
        realization <- np_random_random ;;
        recombinant_genotype <-
          (if Qltb realization (cross_probability self)
           then
             g1 <- genotype individual1 ;;
             rest <- subscript_individual individual2 recombination_locus ;;
             ret (take (Z.to_nat recombination_locus) g1 ++ rest)%list
           else
             g2 <- genotype individual2 ;;
             rest <- subscript_individual individual1 recombination_locus ;;
             ret (take (Z.to_nat recombination_locus) g2 ++ rest)%list) ;;
        run call_update_genotype (A := unit) recombinant
              (ret recombinant_genotype) ;;
        ret recombinant
    | _ => raise (ValueError "not enough values to unpack")
    end.

(** ** Population *)

Definition pref := nat.

Definition load_population (p : pref) : Py Population :=
  λ w, match populations w !! p with
       | Some P => (Ok P, w)
       | None => (Raise NoSuchObject, w)
       end.

Definition store_population (p : pref) (P : Population) : Py unit :=
  modify (λ w, mkWorld (individuals w) (<[p := P]> (populations w)) (rng w)).

Definition new_population (P : Population) : Py pref :=
  λ w, (Ok (length (populations w)),
        mkWorld (individuals w) (populations w ++ [P])%list (rng w)).

Definition with_population (v : pop_value) (P : Population) : Population :=
  mkPopulation (space P) (individual P) v (extremes P).
Definition with_extreme (name : string) (v : Q) (P : Population)
  : Population :=
  mkPopulation (space P) (individual P) (_population P)
    (<[name := v]> (extremes P)).

(** [generate_population] *)
Definition generate_population (searchspace_interface : Interface)
    (individual : Net → list gene → Individual) : Py (list ref) :=
  samples <- lift (generate_random_samples searchspace_interface 20) ;;
  let '(architectures, cells) := samples in
  let genotypes := architecture_to_genotype <$> cells in
  map_each (λ '(net, genotype), new (individual net genotype))
           (zip architectures genotypes).

(** [Population.__init__] *)
Definition Population_init (space : Interface)
    (individual : Net → list gene → Individual)
    (init_population : pop_value) : Py pref :=
  if truthy init_population
  then
    generated <- generate_population space individual ;;
    new_population (mkPopulation space individual (Members generated) ∅)
  else
    new_population (mkPopulation space individual init_population ∅).

(** Iterating [self._population]. *)
Definition iterate (v : pop_value) : Py (list ref) :=
  match v with
  | Members l => ret l
  | Flag _ => raise (TypeError "'bool' object is not iterable")
  end.

(** The property [individuals]. *)
Definition individuals_of (self : pref) : Py pop_value :=
  P <- load_population self ;; ret (_population P).

(** [isinstance(el, Individual)]: a reference into the store of
    individuals names nothing else. *)
Definition isinstance_Individual (el : ref) : bool := true.

(** [Population.update_population] *)
Definition update_population (self : pref) (new_members : list ref)
  : Py unit :=
  if forallb isinstance_Individual new_members
  then
    P <- load_population self ;;
    store_population self (with_population (Members new_members) P)
  else
    raise (ValueError "new_population is not an Iterable of `Individual` datatype!").

(** *** sorted

    [sorted(xs, key=..., reverse=...)] computes every key first and then
    sorts.  The sort is stable in both directions, so its result is the
    one of an insertion sort that never moves an element past an equal
    one. *)
Definition goes_first (reverse : bool) (a b : Q) : bool :=
  if reverse then Qltb b a else Qltb a b.

Fixpoint sorted_insert {A} (reverse : bool) (x : Q * A) (l : list (Q * A))
  : list (Q * A) :=
  match l with
  | [] => [x]
  | y :: l' =>
      if goes_first reverse y.1 x.1
      then y :: sorted_insert reverse x l'
      else x :: y :: l'
  end.

Definition sorted_pairs {A} (reverse : bool) (l : list (Q * A))
  : list (Q * A) :=
  foldr (sorted_insert reverse) [] l.

Definition sorted (xs : list ref) (key : ref → Py Q) (reverse : bool)
  : Py (list ref) :=
  keys <- map_each key xs ;;
  ret ((sorted_pairs reverse (zip keys xs)).*2).

Fixpoint enumerate_from {A} (start : nat) (l : list A) : list (nat * A) :=
  match l with
  | [] => []
  | x :: l' => (start, x) :: enumerate_from (S start) l'
  end.
Definition enumerate {A} (l : list A) : list (nat * A) :=
  enumerate_from 0 l.

(** The slice [l[:n]]: a negative bound counts from the end. *)
Definition slice_to {A} (n : Z) (l : list A) : list A :=
  if (n <? 0)%Z
  then take (length l - Z.to_nat (- n)) l
  else take (Z.to_nat n) l.

(** [Population.fittest_n] *)
Definition fittest_n (self : pref) (n : Z) : Py (list ref) :=
  P <- load_population self ;;
  members <- iterate (_population P) ;;
  ranked <- sorted members fitness true ;;
  ret (slice_to n ranked).

(** [Population.update_ranking] *)
Definition update_ranking (self : pref) : Py unit :=
  P <- load_population self ;;
  members <- iterate (_population P) ;;
  sorted_individuals <- sorted members fitness true ;;
  for_each (enumerate sorted_individuals)
    (λ '(ranking, individual),
       Individual_update_ranking individual (inject_Z (Z.of_nat ranking))).


(** [getattr(self, name)] and [setattr(self, name, value)] on a
    population, for the names [min_<score>] and [max_<score>]: no
    attribute of the class starts that way. *)
Definition getattr_population (self : pref) (name : string) : Py Q :=
  P <- load_population self ;;
  match extremes P !! name with
  | Some v => ret v
  | None => raise AttributeError
  end.

Definition setattr_population (self : pref) (name : string) (value : Q)
  : Py unit :=
  P <- load_population self ;;
  store_population self (with_extreme name value P).

Definition first_of {A} (l : list A) : Py A :=
  match head l with Some x => ret x | None => raise IndexError end.
Definition last_of {A} (l : list A) : Py A :=
  match last l with Some x => ret x | None => raise IndexError end.

(** [Population.set_extremes] *)
Definition set_extremes (self : pref) (score : string) : Py unit :=
  members_value <- individuals_of self ;;
  members <- iterate members_value ;;
  sorted_population <- sorted members (λ r, getattr r score) false ;;
  lowest <- first_of sorted_population ;;
  min_value <- getattr lowest score ;;
  highest <- last_of sorted_population ;;
  max_value <- getattr highest score ;;
  run setattr_population self ("max_" +:+ score) max_value ;;
  setattr_population self ("min_" +:+ score) min_value.

(** [copy(self.individuals)]: a deep copy of the list; an object that
    occurs twice is copied once. *)
Fixpoint deepcopy_list (memo : gmap ref ref) (l : list ref)
  : Py (list ref) :=
  match l with
  | [] => ret []
  | r :: l' =>
      match memo !! r with
      | Some r' =>
          rest <- deepcopy_list memo l' ;; ret (r' :: rest)
      | None =>
          r' <- deepcopy r ;;
          rest <- deepcopy_list (<[r := r']> memo) l' ;;
          ret (r' :: rest)
      end
  end.

Definition deepcopy_members (v : pop_value) : Py pop_value :=
  match v with
  | Flag b => ret (Flag b)
  | Members l => l' <- deepcopy_list ∅ l ;; ret (Members l')
  end.

(** [a / b] on numbers *)
Definition true_divide (a b : Q) : Py Q :=
  if Qeq_bool b 0 then raise ZeroDivisionError else ret (a / b)%Q.

(** The local function [minmax_individual] of [normalize_scores]. *)
Definition minmax_individual (score : string) (min_value max_value : Q)
    (individual : ref) : Py ref :=
  new_individual <- deepcopy individual ;;
  value <- getattr individual score ;;
  normalized <- true_divide (value - min_value)%Q (max_value - min_value)%Q ;;
  run setattr new_individual score normalized ;;
  ret new_individual.

(** [Population.normalize_scores].  [score] is a string, so the
    [isinstance] guard passes.  The method calls itself from its
    [except] clause; [depth] is the number of nested calls the
    interpreter still allows before it raises [RecursionError].  The
    result is [None] or the list of the [return] statement. *)
Fixpoint normalize_scores (depth : nat) (self : pref) (score : string)
    (inplace : bool) : Py (option (list ref)) :=
  match depth with
  | O => raise RecursionError
  | S depth' =>
      try_except_AttributeError
        (min_value <- getattr_population self ("min_" +:+ score) ;;
         max_value <- getattr_population self ("max_" +:+ score) ;;
         members_value <- individuals_of self ;;
         modified_individuals <- deepcopy_members members_value ;;
         copies <- iterate modified_individuals ;;
         new_members <-
           map_each (minmax_individual score min_value max_value) copies ;;
         if inplace
         then run update_population self new_members ;; ret None
         else ret (Some new_members))
        (run set_extremes self score ;;
         discarded <- normalize_scores depth' self score true ;;
         ret None)
  end.

(** [Population.apply_on_individuals], for a [function] that returns an
    individual.  The list is copied first, then [function] runs on the
    copies in order. *)
Definition apply_on_individuals (self : pref) (function : ref → Py ref)
    (inplace : bool) : Py (option (list ref)) :=
  P <- load_population self ;;
  snapshot <- deepcopy_members (_population P) ;;
  copies <- iterate snapshot ;;
  modified_individuals <- map_each function copies ;;
  if inplace
  then run update_population self modified_individuals ;; ret None
  else ret (Some modified_individuals).

(** A [function] for [apply_on_individuals] that works on the object it
    is given: it rewrites the individual by [f] and returns it. *)
Definition in_place (f : Individual → result Individual) (r : ref)
  : Py ref :=
  i <- load r ;;
  i' <- lift (f i) ;;
  run store r i' ;;
  ret r.

(** ** Genetic: parent selection *)

(** The loop of [obtain_parents]: one tournament per parent, the winner
    is the head of the tournament sorted by descending fitness. *)
Fixpoint obtain_parents_rounds (self : Genetic) (population : list ref)
    (rounds : nat) (parents : list ref) : Py (list ref) :=
  match rounds with
  | O => ret parents
  | S rounds' =>
      drawn <- tournament self population ;;
      ranked <- sorted drawn fitness true ;;
      winner <- first_of ranked ;;
      obtain_parents_rounds self population rounds' (parents ++ [winner])%list
  end.

(** [Genetic.obtain_parents] *)
Definition obtain_parents (self : Genetic) (population : list ref)
    (n_parents : Z) : Py (list ref) :=
  obtain_parents_rounds self population (Z.to_nat n_parents) [].

(** ** Observations on a world, for stating properties *)

(** A computation that leaves every object of the store as it is. *)
Definition same_store (w w' : world) : Prop :=
  individuals w' = individuals w ∧ populations w' = populations w.

(** A computation that only adds individuals to the store. *)
Definition extends (w w' : world) : Prop :=
  individuals w `prefix_of` individuals w'
  ∧ populations w' = populations w
  ∧ rng w' = rng w.

(** A computation that, whatever it returns or raises, leaves every
    individual of the store as it was (it may add some) and leaves the
    populations as they were. *)
Definition grows {A} (m : Py A) : Prop :=
  ∀ w, individuals w `prefix_of` individuals (m w).2
       ∧ populations (m w).2 = populations w.

(** What a population of the store holds. *)
Definition members_of (w : world) (p : nat) : option pop_value :=
  _population <$> populations w !! p.

(** The fitness and the rank an individual of the store has. *)
Definition fitness_of (w : world) (r : ref) : Q :=
  default 0%Q (_fitness <$> individuals w !! r).
Definition rank_of (w : world) (r : ref) : Q :=
  default 0%Q (_rank <$> individuals w !! r).

(** The value of a score an individual of the store has. *)
Definition score_of (w : world) (score : string) (r : ref) : Q :=
  match individuals w !! r with
  | Some i => match read_attribute i score with Ok q => q | Raise _ => 0%Q end
  | None => 0%Q
  end.

(** The names the model of [getattr] and [setattr] covers: the special
    attributes of every Python object ([__class__], [__dict__], ...) are
    left out. *)
Definition plain_name (score : string) : bool :=
  negb (String.prefix "__" score).

(** Numbers a Python [float] holds exactly: [n / 2^k] with [|n| < 2^53]
    and [k ≤ 1074], the integers below [2^53] among them. *)
Definition exact_double (q : Q) : bool :=
  let r := Qred q in
  (Z.abs (Qnum r) <? 2 ^ 53)%Z
  && (Z.pos (Qden r) =? 2 ^ Z.log2 (Z.pos (Qden r)))%Z
  && (Z.log2 (Z.pos (Qden r)) <=? 1074)%Z.

(** Rescaling [v] by the extremes [low] and [high] rounds nothing: the
    three numbers, the two differences and the quotient are held
    exactly, so that [int] and [float] arithmetic give the rational
    result. *)
Definition exact_rescaling (low high v : Q) : bool :=
  forallb exact_double
    [v; low; high; (v - low)%Q; (high - low)%Q;
     ((v - low) / (high - low))%Q].

(** The individual after [setattr(individual, score, v)] has succeeded. *)
Definition written (i : Individual) (score : string) (v : Q) : Individual :=
  match resolve score with
  | Field _ set => set v i
  | Dynamic => with_attached score v i
  | ReadOnlyProperty _ | NotANumber => i
  end.

(** The names [setattr] accepts: instance fields and attached scores. *)
Definition settable (score : string) : bool :=
  match resolve score with
  | Field _ _ | Dynamic => true
  | ReadOnlyProperty _ | NotANumber => false
  end.

(** [c] holds a copy of the individual [r] holds. *)
Definition copy_of (w : world) (r c : ref) : Prop :=
  ∃ i, individuals w !! r = Some i ∧ individuals w !! c = Some i.

(** [m] holds the individual of [r] with its score rescaled by the
    extremes [low] and [high]. *)
Definition normalized_copy (w : world) (score : string) (low high : Q)
    (r m : ref) : Prop :=
  ∃ i v,
    individuals w !! r = Some i
    ∧ read_attribute i score = Ok v
    ∧ individuals w !! m
      = Some (written i score ((v - low) / (high - low))%Q).

(** Readable scores: every member is in the store and holds a number
    under the name [score]. *)
Definition readable (w : world) (score : string) (members : list ref)
  : Prop :=
  ∀ r, r ∈ members →
    ∃ i q, individuals w !! r = Some i ∧ read_attribute i score = Ok q.

(** The members in the order
    [sorted(members, key=lambda individual: getattr(individual, score))]. *)
Definition by_score (w : world) (score : string) (members : list ref)
  : list ref :=
  (sorted_pairs false ((λ r, (score_of w score r, r)) <$> members)).*2.

(** The attribute [name] of a population of the store, if it is set. *)
Definition extreme_of (w : world) (p : nat) (name : string) : option Q :=
  match populations w !! p with
  | Some P => extremes P !! name
  | None => None
  end.

(** The members in the order
    [sorted(members, key=lambda individual: individual.fitness, reverse=True)]. *)
Definition by_fitness (w : world) (members : list ref) : list ref :=
  (sorted_pairs true ((λ r, (fitness_of w r, r)) <$> members)).*2.

End Engine.

(** [may_precede reverse x y]: the order of [sorted] allows [x] in front
    of [y], that is, [y] is not strictly ahead of [x]. *)
Definition may_precede {A} (reverse : bool) (x y : Q * A) : Prop :=
  goes_first reverse y.1 x.1 = false.

(** [before a b l]: an occurrence of [a] in [l] comes earlier than an
    occurrence of [b]. *)
Definition before {A} (a b : A) (l : list A) : Prop :=
  ∃ l1 l2 l3, l = (l1 ++ a :: l2 ++ b :: l3)%list.

(** ** A small instance, for evaluating the engine on concrete inputs *)

Module Toy.
Definition gene_text (g : gene) : string :=
  match g with
  | Sym s => s
  | Arr items => String.concat "," items
  end.

#[export] Instance collaborators : Collaborators := {|
  Net := string;
  Interface := unit;
  NATSInterface := λ _ _, tt;
  get_project_root := "/repo";
  genotype_is_valid := λ g, (length g =? 2)%nat;
  genotype_to_architecture := λ g, String.concat "|" (gene_text <$> g);
  architecture_to_genotype := λ cell, [Sym cell];
  query_with_architecture := λ _ arch,
    if String.eqb arch "?" then Raise (ValueError "unknown architecture")
    else Ok arch;
  generate_random_samples := λ _ n,
    Ok (replicate (Z.to_nat n) "net", replicate (Z.to_nat n) "cell")
|}.

(** A counter: the raw outputs are the successive integers. *)
#[export] Instance generator : Generator := {|
  G := Z;
  next := λ seed, (seed, (seed + 1)%Z)
|}.

Definition candidate (genotype : list string) (fitness age : Q)
  : Individual :=
  mkIndividual ∅ (String.concat "|" genotype) (Sym <$> genotype) age
               fitness 0 tt ∅.

Definition operators : Genetic :=
  Genetic_init ["a"; "b"; "c"] "comma" 5 (1 # 2).

Definition empty_world : world := mkWorld [] [] 0%Z.

(** Two candidates with genotypes of the same length. *)
Definition pair_world : world :=
  mkWorld [candidate ["a"; "b"] 0 0; candidate ["c"; "d"] 0 0] [] 0%Z.

(** A population of three candidates with fitness 1, 3 and 3. *)
(** The class [Individual] as the factory of a population. *)
Definition factory (n : Net) (g : list gene) : Individual :=
  Individual_init n g 0 "cifar10" None.

Definition oracle : Interface := tt.

Definition population_holding (v : pop_value) : Population :=
  mkPopulation oracle factory v ∅.
Definition population_of (members : list ref) : Population :=
  population_holding (Members members).

Definition ranked_world : world :=
  mkWorld [candidate ["a"] 1 0; candidate ["b"] 3 0; candidate ["c"] 3 0]
          [population_of [0; 1; 2]] 0%Z.


(** A population of two candidates with the same fitness. *)
Definition flat_world : world :=
  mkWorld [candidate ["a"] 3 0; candidate ["b"] 3 1]
          [population_of [0; 1]] 0%Z.

(** A population of three candidates of fitness and age 2, 4 and 6. *)
Definition spread_world : world :=
  mkWorld [candidate ["a"] 2 2; candidate ["b"] 4 4; candidate ["c"] 6 6]
          [population_of [0; 1; 2]] 0%Z.

(** The population of [spread_world] with the extremes of [age] cached. *)
Definition cached_world : world :=
  mkWorld [candidate ["a"] 2 2; candidate ["b"] 4 4; candidate ["c"] 6 6]
          [mkPopulation oracle factory (Members [0; 1; 2])
                        (<["min_age" := 2%Q]> (<["max_age" := 6%Q]> ∅))]
          0%Z.

(** The empty population. *)
Definition deserted_world : world :=
  mkWorld [] [population_of []] 0%Z.

(** Operators with tournaments of no contestant. *)
Definition no_contest : Genetic :=
  Genetic_init ["a"; "b"; "c"] "comma" 0 (1 # 2).

(** A year more. *)
Definition older (i : Individual) : result Individual :=
  Ok (with_age (age i + 1)%Q i).

(** A transformation that refuses the candidates of age 4. *)
Definition picky (i : Individual) : result Individual :=
  if Qeq_bool (age i) 4 then Raise (ValueError "age 4") else older i.



(** A population that lists its first candidate twice: [[a, b, a]] with
    [a] of fitness 3 and [b] of fitness 1. *)
Definition repeated_world : world :=
  mkWorld [candidate ["a"] 3 0; candidate ["b"] 1 0]
          [population_of [0; 1; 0]] 0%Z.


(** The same collaborators with an oracle that gives no samples. *)
Definition offline : Collaborators := {|
  Net := string;
  Interface := unit;
  NATSInterface := λ _ _, tt;
  get_project_root := "/repo";
  genotype_is_valid := λ g, (length g =? 2)%nat;
  genotype_to_architecture := λ g, String.concat "|" (gene_text <$> g);
  architecture_to_genotype := λ cell, [Sym cell];
  query_with_architecture := λ _ arch, Ok arch;
  generate_random_samples := λ _ _, Raise (ValueError "oracle offline")
|}.

Definition offline_world : @world offline generator :=
  @mkWorld offline generator [] [] 0%Z.
End Toy.

(** * Properties *)

(** Unfolds the sequencing of a computation, so that the calls it makes
    appear applied to their states. *)
Ltac msimpl :=
  cbv beta iota zeta delta [bind ret raise lift modify get].

Section Monad_facts.
Context {S A B : Type}.

Lemma bind_ok (m : M S A) (k : A → M S B) s a s' :
  m s = (Ok a, s') → bind m k s = k a s'.
Proof. intros E. unfold bind. by rewrite E. Qed.

Lemma map_each_cons (f : A → M S B) x xs :
  map_each f (x :: xs)
  = bind (f x) (λ y, bind (map_each f xs) (λ ys, ret (y :: ys))).
Proof. reflexivity. Qed.

Lemma bind_raise (m : M S A) (k : A → M S B) s e s' :
  m s = (Raise e, s') → bind m k s = (Raise e, s').
Proof. intros E. unfold bind. by rewrite E. Qed.
End Monad_facts.

Section Sampling.
Context {collaborators : Collaborators} {generator : Generator}.

Lemma same_store_refl w : same_store w w.
Proof. by split. Qed.

Lemma same_store_trans w1 w2 w3 :
  same_store w1 w2 → same_store w2 w3 → same_store w1 w3.
Proof. intros [? ?] [? ?]. split; congruence. Qed.

Lemma randint_in_range low high w :
  (low < high)%Z →
  ∃ z w', np_random_randint low high w = (Ok z, w')
          ∧ (low ≤ z < high)%Z ∧ same_store w w'.
Proof.
  intros Hlt. unfold np_random_randint.
  destruct (Z.leb_spec high low) as [Hle | _]; [lia |].
  unfold bind, draw. destruct (next (rng w)) as [z g] eqn:E.
  eexists _, _. split; [reflexivity |]. split; [| by split].
  pose proof (Z.mod_pos_bound z (high - low)). lia.
Qed.

Lemma randint_n_in_range pop_size size w :
  (0 < pop_size)%Z →
  ∃ idx w', randint_n pop_size size w = (Ok idx, w')
            ∧ length idx = size
            ∧ Forall (λ i, (0 ≤ i < pop_size)%Z) idx
            ∧ same_store w w'.
Proof.
  intros Hpos. revert w. induction size as [| size IH]; intros w; simpl.
  - eexists [], w. repeat split; auto.
  - destruct (randint_in_range 0 pop_size w Hpos) as (z & w1 & E1 & Hz & Hs1).
    rewrite (bind_ok _ _ _ _ _ E1).
    destruct (IH w1) as (idx & w2 & E2 & Hlen & Hall & Hs2).
    rewrite (bind_ok _ _ _ _ _ E2).
    eexists (z :: idx), w2. split; [reflexivity |].
    split; [simpl; congruence |].
    split; [by constructor |]. by eapply same_store_trans.
Qed.

Lemma take_each_in_range {A} (l : list A) idx w :
  Forall (λ i, (0 ≤ i < Z.of_nat (length l))%Z) idx →
  ∃ picked, map_each (take_at l) idx w = (Ok picked, w)
            ∧ length picked = length idx
            ∧ ∀ x, x ∈ picked → x ∈ l.
Proof.
  induction 1 as [| i idx Hi _ IH]; simpl.
  - eexists []. split; [reflexivity |]. split; [done |].
    intros x Hx. by apply elem_of_nil in Hx.
  - destruct IH as (picked & E & Hlen & Hin).
    unfold take_at at 1.
    destruct (l !! Z.to_nat i) as [x |] eqn:El.
    + unfold bind at 1, ret at 1. rewrite (bind_ok _ _ _ _ _ E).
      eexists (x :: picked). split; [reflexivity |].
      split; [simpl; congruence |].
      intros y Hy. apply elem_of_cons in Hy as [-> | Hy]; [| by apply Hin].
      by eapply list_elem_of_lookup_2.
    + apply lookup_ge_None in El. lia.
Qed.

(** C9, amended. [tournament] on a population that is not empty, with
    [tournament_size = 5], returns exactly five candidates, each of them
    a member of the population, whatever the size of the population;
    no object of the store changes. *)
Theorem tournament_draws_members (self : Genetic) (population : list ref)
    (w : world) :
  tournament_size self = 5%Z →
  population ≠ [] →
  ∃ chosen w',
    tournament self population w = (Ok chosen, w')
    ∧ length chosen = 5
    ∧ (∀ r, r ∈ chosen → r ∈ population)
    ∧ same_store w w'.
Proof.
  intros Hsize Hne. unfold tournament, np_random_choice. rewrite Hsize.
  rewrite bool_decide_eq_false_2 by done. simpl.
  assert (Hpos : (0 < Z.of_nat (length population))%Z)
    by (destruct population; [done | simpl; lia]).
  destruct (randint_n_in_range _ (Z.to_nat 5) w Hpos)
    as (idx & w' & E & Hlen & Hall & Hs).
  rewrite (bind_ok _ _ _ _ _ E).
  destruct (take_each_in_range population idx w' Hall)
    as (picked & E' & Hlen' & Hin).
  exists picked, w'. split; [done |].
  split; [rewrite Hlen', Hlen; reflexivity |]. by split.
Qed.
End Sampling.

Lemma tournament_draws_members_witness :
  ∃ chosen w',
    tournament Toy.operators [0; 1; 2] Toy.ranked_world = (Ok chosen, w')
    ∧ length chosen = 5
    ∧ (∀ r, r ∈ chosen → r ∈ [0; 1; 2])
    ∧ same_store Toy.ranked_world w'.
Proof.
  apply (tournament_draws_members Toy.operators [0; 1; 2] Toy.ranked_world).
  - reflexivity.
  - discriminate.
Defined.

(** With the counter as generator, the five draws from three candidates
    are 0, 1, 2, 0, 1. *)
Example tournament_of_five_from_three :
  (tournament Toy.operators [0; 1; 2] Toy.ranked_world).1
  = Ok [0; 1; 2; 0; 1].
Proof. reflexivity. Qed.

(** C9 as stated fails on the empty population: [np.random.choice]
    refuses to draw five items from an empty array. *)
Lemma tournament_empty_population_fails :
  tournament Toy.operators [] Toy.empty_world
  = (Raise (ValueError "'a' cannot be empty unless no samples are taken"),
     Toy.empty_world).
Proof. reflexivity. Qed.

Section Operators.
Context {collaborators : Collaborators} {generator : Generator}.

Lemma load_some r i w :
  individuals w !! r = Some i → load r w = (Ok i, w).
Proof. intros E. unfold load. by rewrite E. Qed.

Lemma load_none r w :
  individuals w !! r = None → load r w = (Raise NoSuchObject, w).
Proof. intros E. unfold load. by rewrite E. Qed.

Lemma deepcopy_some r i w :
  individuals w !! r = Some i →
  deepcopy r w
  = (Ok (length (individuals w)),
     mkWorld (individuals w ++ [i])%list (populations w) (rng w)).
Proof. intros E. unfold deepcopy. by rewrite (bind_ok _ _ _ _ _ (load_some _ _ _ E)). Qed.

Lemma lookup_fresh (l : list Individual) i : (l ++ [i])%list !! length l = Some i.
Proof. rewrite lookup_app_r by lia. by rewrite Nat.sub_diag. Qed.

Lemma genotype_some r i w :
  individuals w !! r = Some i → genotype r w = (Ok (_genotype i), w).
Proof.
  intros E. unfold genotype.
  by rewrite (bind_ok _ _ _ _ _ (load_some _ _ _ E)).
Qed.

(** Calling [obj.update_genotype(...)] never returns. *)
Lemma call_update_genotype_raises {A} r (arg : Py (list gene)) w :
  is_ok (call_update_genotype (A := A) r arg w).1 = false.
Proof.
  unfold call_update_genotype, update_genotype_get, genotype, bind, load.
  destruct (individuals w !! r); simpl; [| done].
  destruct (arg w) as [[g | e] w']; done.
Qed.

(** A round of the loop of [mutate] never completes: either the
    genotype is empty and [randint(0, 0)] fails, or [choice] is handed a
    set. *)
Lemma mutate_round_raises self r w :
  is_ok (mutate_round self r w).1 = false.
Proof.
  unfold mutate_round.
  destruct (individuals w !! r) as [i |] eqn:E.
  - rewrite !(bind_ok _ _ _ _ _ (genotype_some _ _ _ E)).
    unfold bind at 1.
    destruct (np_random_randint _ _ w) as [[z | e] w1]; [| done].
    unfold bind at 1, take_at.
    destruct (_genotype i !! Z.to_nat z); done.
  - unfold genotype at 1.
    by rewrite (bind_raise _ _ _ _ _ (bind_raise _ _ _ _ _ (load_none _ _ E))).
Qed.

Lemma mutate_rounds_raises self r rounds last w :
  rounds ≠ O → is_ok (mutate_rounds self r rounds last w).1 = false.
Proof.
  destruct rounds as [| rounds]; [done |]. intros _. simpl.
  pose proof (mutate_round_raises self r w) as H. unfold bind.
  destruct (mutate_round self r w) as [[g | e] w']; done.
Qed.

(** [mutate] returns on no input at all. *)
Lemma mutate_never_returns self individual n_loci w :
  is_ok (mutate self individual n_loci w).1 = false.
Proof.
  unfold mutate. unfold bind at 1.
  destruct (deepcopy individual w) as [[m | e] w1]; [| done].
  unfold bind at 1. destruct (Z.to_nat n_loci) as [| rounds] eqn:En.
  - cbn [mutate_rounds]. unfold ret at 1. apply call_update_genotype_raises.
  - pose proof (mutate_rounds_raises self m (S rounds) None w1) as H.
    destruct (mutate_rounds self m (S rounds) None w1) as [[g | e] w2];
      [by specialize (H ltac:(done)) | done].
Qed.

(** C1, what the code does.  [mutate(individual, n_loci=1)] on a
    candidate with a genotype that is not empty returns no candidate:
    the replacement gene is drawn with [np.random.choice] from a set,
    and the call raises [ValueError], whatever the alphabet. *)
Theorem mutate_raises_on_choice self individual w i :
  individuals w !! individual = Some i →
  _genotype i ≠ [] →
  (mutate self individual 1 w).1
  = Raise (ValueError "a must be 1-dimensional or an integer").
Proof.
  intros E Hne. unfold mutate. change (Z.to_nat 1) with 1%nat.
  cbn [mutate_rounds]. unfold mutate_round. msimpl.
  rewrite (deepcopy_some _ _ _ E).
  set (w1 := mkWorld _ _ _).
  assert (E1 : individuals w1 !! length (individuals w) = Some i)
    by apply lookup_fresh.
  rewrite !(genotype_some _ _ _ E1).
  assert (Hpos : (0 < Z.of_nat (length (_genotype i)))%Z)
    by (destruct (_genotype i); [done | simpl; lia]).
  destruct (randint_in_range 0 _ w1 Hpos) as (z & w2 & Ez & Hz & Hs).
  rewrite Ez. unfold take_at.
  destruct (_genotype i !! Z.to_nat z) as [g |] eqn:Eg.
  - reflexivity.
  - apply lookup_ge_None in Eg. lia.
Qed.

(** What [recombine] does with two parents, whatever their genotypes:
    both branches subscript an [Individual]. *)
Lemma recombine_two_parents self individual1 individual2 n_parts w i1 i2 :
  individuals w !! individual1 = Some i1 →
  individuals w !! individual2 = Some i2 →
  _genotype i1 ≠ [] →
  (recombine self [individual1; individual2] n_parts w).1
  = Raise (TypeError "'Individual' object is not subscriptable").
Proof.
  intros E1 E2 Hne. unfold recombine. cbn [length Nat.eqb negb]. msimpl.
  rewrite (deepcopy_some _ _ _ E1). set (w1 := mkWorld _ _ _).
  assert (E1' : individuals w1 !! individual1 = Some i1)
    by (by apply lookup_app_l_Some).
  assert (E2' : individuals w1 !! individual2 = Some i2)
    by (by apply lookup_app_l_Some).
  rewrite (genotype_some _ _ _ E1').
  assert (Hpos : (0 < Z.of_nat (length (_genotype i1)))%Z)
    by (destruct (_genotype i1); [done | simpl; lia]).
  destruct (randint_in_range 0 _ w1 Hpos) as (z & w2 & Ez & Hz & [Hs _]).
  rewrite Ez. unfold np_random_random, draw. msimpl.
  destruct (next (rng w2)) as [raw g].
  destruct (Qltb _ _); msimpl.
  - rewrite (genotype_some individual1 i1) by (simpl; congruence). done.
  - rewrite (genotype_some individual2 i2) by (simpl; congruence). done.
Qed.

(** C3, what the code does.  For two parents with genotypes of equal
    length [L > 0], [recombine] returns no candidate: to take the suffix
    it subscripts the parent itself, not its genotype, and the call
    raises [TypeError]. *)
Theorem recombine_raises_on_subscript self individual1 individual2 n_parts
    w i1 i2 :
  individuals w !! individual1 = Some i1 →
  individuals w !! individual2 = Some i2 →
  length (_genotype i1) = length (_genotype i2) →
  _genotype i1 ≠ [] →
  (recombine self [individual1; individual2] n_parts w).1
  = Raise (TypeError "'Individual' object is not subscriptable").
Proof. intros E1 E2 _ Hne. by eapply recombine_two_parents. Qed.



(** C2, what the code does.  Assigning a genotype that the validity
    check rejects raises nothing: the genotype is stored and the net is
    resolved again through the oracle. *)
Theorem update_genotype_accepts_invalid self new_genotype w i n :
  individuals w !! self = Some i →
  genotype_is_valid new_genotype = false →
  query_with_architecture (interface i)
    (genotype_to_architecture new_genotype) = Ok n →
  update_genotype self new_genotype w
  = (Ok tt,
     mkWorld (<[self := with_net n (with_genotype new_genotype i)]>
                (individuals w))
             (populations w) (rng w)).
Proof.
  intros E Hbad Hq. unfold update_genotype, update_net. rewrite Hbad.
  msimpl. cbn [negb]. rewrite (load_some _ _ _ E).
  unfold store at 1. msimpl. unfold load at 1. cbn [individuals].
  rewrite list_lookup_insert_eq by (by eapply lookup_lt_Some).
  cbn [with_genotype _genotype interface]. rewrite Hq.
  unfold store. msimpl. cbn [individuals populations rng].
  by rewrite list_insert_insert_eq.
Qed.

(** When the oracle fails, the exception leaves the new genotype next
    to the old net. *)
Lemma update_genotype_oracle_failure self new_genotype w i e :
  individuals w !! self = Some i →
  query_with_architecture (interface i)
    (genotype_to_architecture new_genotype) = Raise e →
  update_genotype self new_genotype w
  = (Raise e,
     mkWorld (<[self := with_genotype new_genotype i]> (individuals w))
             (populations w) (rng w)).
Proof.
  intros E Hq. unfold update_genotype, update_net. msimpl.
  destruct (negb _); rewrite (load_some _ _ _ E);
    unfold store at 1; msimpl; unfold load at 1; cbn [individuals];
    (rewrite list_lookup_insert_eq by (by eapply lookup_lt_Some));
    cbn [with_genotype _genotype interface]; by rewrite Hq.
Qed.
End Operators.

Lemma mutate_raises_on_choice_witness :
  (mutate Toy.operators 0 1 Toy.pair_world).1
  = Raise (ValueError "a must be 1-dimensional or an integer").
Proof.
  apply (mutate_raises_on_choice Toy.operators 0 Toy.pair_world
           (Toy.candidate ["a"; "b"] 0 0)).
  - reflexivity.
  - discriminate.
Defined.

Lemma recombine_raises_on_subscript_witness :
  (recombine Toy.operators [0; 1] 2 Toy.pair_world).1
  = Raise (TypeError "'Individual' object is not subscriptable").
Proof.
  apply (recombine_raises_on_subscript Toy.operators 0 1 2 Toy.pair_world
           (Toy.candidate ["a"; "b"] 0 0) (Toy.candidate ["c"; "d"] 0 0)).
  - reflexivity.
  - reflexivity.
  - reflexivity.
  - discriminate.
Defined.



Lemma update_genotype_accepts_invalid_witness :
  update_genotype 0 [Sym "z"] Toy.pair_world
  = (Ok tt,
     @mkWorld Toy.collaborators Toy.generator
       [@with_net Toy.collaborators "z"
          (with_genotype [Sym "z"] (Toy.candidate ["a"; "b"] 0 0));
        Toy.candidate ["c"; "d"] 0 0] [] 0%Z).
Proof.
  apply (update_genotype_accepts_invalid 0 [Sym "z"] Toy.pair_world
           (Toy.candidate ["a"; "b"] 0 0) "z").
  - reflexivity.
  - reflexivity.
  - reflexivity.
Defined.

(** ** The order [sorted] produces *)

Section Sorting.
Context {A : Type}.
Implicit Types (l : list (Q * A)) (x y : Q * A).

Lemma goes_first_asym reverse (a b : Q) :
  goes_first reverse a b = true → goes_first reverse b a = false.
Proof.
  unfold goes_first, Qltb.
  destruct reverse; rewrite negb_true_iff, negb_false_iff;
    intros H; apply Qle_bool_iff; apply Qlt_le_weak, Qnot_le_lt;
    intros H'; apply Qle_bool_iff in H'; congruence.
Qed.

Lemma goes_first_false_trans reverse (a b c : Q) :
  goes_first reverse b a = false → goes_first reverse c b = false →
  goes_first reverse c a = false.
Proof.
  unfold goes_first, Qltb.
  destruct reverse; rewrite !negb_false_iff, !Qle_bool_iff;
    intros; by eapply Qle_trans.
Qed.

Lemma sorted_insert_perm reverse x l :
  sorted_insert reverse x l ≡ₚ x :: l.
Proof.
  induction l as [| y l IH]; simpl; [done |].
  destruct (goes_first reverse y.1 x.1); [| done].
  rewrite IH. apply Permutation_swap.
Qed.

Lemma sorted_pairs_perm reverse l : sorted_pairs reverse l ≡ₚ l.
Proof.
  induction l as [| x l IH]; simpl; [done |].
  unfold sorted_pairs in *. simpl. by rewrite sorted_insert_perm, IH.
Qed.

Lemma sorted_insert_sorted reverse x l :
  StronglySorted (may_precede reverse) l →
  StronglySorted (may_precede reverse) (sorted_insert reverse x l).
Proof.
  induction 1 as [| y l Hl IH Hy]; simpl.
  - repeat constructor.
  - destruct (goes_first reverse y.1 x.1) eqn:E.
    + constructor; [done |].
      rewrite sorted_insert_perm. constructor; [| done].
      by apply goes_first_asym.
    + constructor; [by constructor |].
      constructor; [done |].
      eapply Forall_impl; [exact Hy |]. intros z Hz.
      unfold may_precede in *. by eapply goes_first_false_trans.
Qed.

Lemma sorted_pairs_sorted reverse l :
  StronglySorted (may_precede reverse) (sorted_pairs reverse l).
Proof.
  induction l as [| x l IH]; [constructor |].
  by apply sorted_insert_sorted.
Qed.
End Sorting.

Section Before.
Context {A : Type}.
Implicit Types (a b x : A) (l : list A).

Lemma before_cons a b x l : before a b l → before a b (x :: l).
Proof. intros (l1 & l2 & l3 & ->). by exists (x :: l1), l2, l3. Qed.

Lemma before_head a b l : b ∈ l → before a b (a :: l).
Proof.
  intros (l2 & l3 & ->)%list_elem_of_split. by exists [], l2, l3.
Qed.

Lemma before_cons_inv a b x l :
  before a b (x :: l) → (a = x ∧ b ∈ l) ∨ before a b l.
Proof.
  intros ([| y l1] & l2 & l3 & E); simplify_eq/=.
  - left. split; [done |]. set_solver.
  - right. by exists l1, l2, l3.
Qed.

Lemma before_fmap {B} (f : A → B) a b l :
  before a b l → before (f a) (f b) (f <$> l).
Proof.
  intros (l1 & l2 & l3 & ->).
  exists (f <$> l1), (f <$> l2), (f <$> l3).
  by rewrite fmap_app, fmap_cons, fmap_app, fmap_cons.
Qed.

Lemma before_lookup a b l :
  before a b l → ∃ i j, i < j ∧ l !! i = Some a ∧ l !! j = Some b.
Proof.
  intros (l1 & l2 & l3 & ->).
  exists (length l1), (length l1 + S (length l2)).
  split; [lia |]. split.
  - by rewrite list_lookup_middle.
  - rewrite lookup_app_r by lia.
    replace (length l1 + S (length l2) - length l1) with (S (length l2))
      by lia.
    simpl. by rewrite list_lookup_middle.
Qed.

Lemma lookup_before a b l i j :
  i < j → l !! i = Some a → l !! j = Some b → before a b l.
Proof.
  intros Hij Ha Hb.
  pose proof (take_drop_middle l i a Ha) as E.
  assert (Hb' : drop (S i) l !! (j - S i) = Some b).
  { rewrite lookup_drop. by replace (S i + (j - S i)) with j by lia. }
  pose proof (take_drop_middle _ _ _ Hb') as E'.
  exists (take i l), (take (j - S i) (drop (S i) l)),
         (drop (S (j - S i)) (drop (S i) l)).
  by rewrite E', E.
Qed.

Lemma before_sorted (R : relation A) a b l :
  StronglySorted R l → before a b l → R a b.
Proof.
  intros Hs (l1 & l2 & l3 & ->).
  apply StronglySorted_app_1_r in Hs.
  apply StronglySorted_inv in Hs as [_ Hall].
  rewrite Forall_forall in Hall. apply Hall. set_solver.
Qed.
End Before.

Section Stability.
Context {A : Type}.
Implicit Types (l : list (Q * A)) (x y a b : Q * A).

Lemma sorted_insert_keeps_order reverse x a b l :
  before a b l → before a b (sorted_insert reverse x l).
Proof.
  induction l as [| y l IH]; simpl; intros H.
  - destruct H as ([| ? ?] & ? & ? & ?); simplify_eq/=.
  - destruct (goes_first reverse y.1 x.1); [| by apply before_cons].
    apply before_cons_inv in H as [[-> Hb] | H].
    + apply before_head. rewrite sorted_insert_perm. set_solver.
    + by apply before_cons, IH.
Qed.

(** The element inserted lands in front of every element that is not
    strictly ahead of it. *)
Lemma sorted_insert_in_front reverse x b l :
  b ∈ l → goes_first reverse b.1 x.1 = false →
  before x b (sorted_insert reverse x l).
Proof.
  induction l as [| y l IH]; simpl; intros Hb Hgf.
  - by apply elem_of_nil in Hb.
  - destruct (goes_first reverse y.1 x.1) eqn:E.
    + apply elem_of_cons in Hb as [-> | Hb]; [congruence |].
      by apply before_cons, IH.
    + by apply before_head.
Qed.

(** [sorted] is stable: two elements stay in their input order unless
    the second is strictly ahead of the first. *)
Lemma sorted_pairs_stable reverse a b l :
  before a b l → goes_first reverse b.1 a.1 = false →
  before a b (sorted_pairs reverse l).
Proof.
  induction l as [| x l IH]; intros H Hgf.
  - destruct H as ([| ? ?] & ? & ? & ?); simplify_eq/=.
  - change (sorted_pairs reverse (x :: l))
      with (sorted_insert reverse x (sorted_pairs reverse l)).
    apply before_cons_inv in H as [[-> Hb] | H].
    + apply sorted_insert_in_front; [| done].
      by rewrite sorted_pairs_perm.
    + by apply sorted_insert_keeps_order, IH.
Qed.
End Stability.

(** ** Ranking *)

Section Ranking.
Context {collaborators : Collaborators} {generator : Generator}.

Lemma zip_fmap_self {A B} (f : A → B) (l : list A) :
  zip (f <$> l) l = (λ x, (f x, x)) <$> l.
Proof. induction l as [| x l IH]; [done |]. cbn. by rewrite IH. Qed.

Lemma fitness_some r i w :
  individuals w !! r = Some i → fitness r w = (Ok (fitness_of w r), w).
Proof.
  intros E. unfold fitness, fitness_of. msimpl.
  by rewrite (load_some _ _ _ E), E.
Qed.

Lemma map_each_fitness members w :
  (∀ r, r ∈ members → is_Some (individuals w !! r)) →
  map_each fitness members w = (Ok (fitness_of w <$> members), w).
Proof.
  induction members as [| r members IH]; intros Hwf; [done |].
  destruct (Hwf r) as [i E]; [set_solver |].
  cbn [map_each]. msimpl. rewrite (fitness_some _ _ _ E).
  fold (@map_each world ref Q).
  rewrite IH by (intros; apply Hwf; set_solver). done.
Qed.

Lemma sorted_by_fitness members w :
  (∀ r, r ∈ members → is_Some (individuals w !! r)) →
  sorted members fitness true w = (Ok (by_fitness w members), w).
Proof.
  intros Hwf. unfold sorted. msimpl.
  rewrite (map_each_fitness _ _ Hwf). by rewrite zip_fmap_self.
Qed.

Lemma by_fitness_perm w members : by_fitness w members ≡ₚ members.
Proof.
  unfold by_fitness. rewrite sorted_pairs_perm, <- list_fmap_compose.
  by rewrite list_fmap_id.
Qed.

Lemma by_fitness_descending w members i j r1 r2 :
  by_fitness w members !! i = Some r1 →
  by_fitness w members !! j = Some r2 →
  i < j → (fitness_of w r2 <= fitness_of w r1)%Q.
Proof.
  unfold by_fitness. rewrite !list_lookup_fmap.
  set (pairs := (λ r, (fitness_of w r, r)) <$> members).
  destruct (sorted_pairs true pairs !! i) as [p1 |] eqn:E1; [| done].
  destruct (sorted_pairs true pairs !! j) as [p2 |] eqn:E2; [| done].
  intros [= <-] [= <-] Hij.
  assert (Hkey : ∀ p, p ∈ sorted_pairs true pairs → p.1 = fitness_of w p.2).
  { intros p Hp. rewrite sorted_pairs_perm in Hp.
    apply list_elem_of_fmap in Hp as (r & -> & _). done. }
  rewrite <- (Hkey p1), <- (Hkey p2) by (by eapply list_elem_of_lookup_2).
  pose proof (before_sorted _ p1 p2 _ (sorted_pairs_sorted true pairs)
                (lookup_before _ _ _ _ _ Hij E1 E2)) as H.
  unfold may_precede, goes_first, Qltb in H.
  apply negb_false_iff in H. by apply Qle_bool_iff.
Qed.

Lemma by_fitness_stable w members r1 r2 :
  before r1 r2 members →
  (fitness_of w r2 <= fitness_of w r1)%Q →
  before r1 r2 (by_fitness w members).
Proof.
  intros Hb Hle. unfold by_fitness.
  apply (before_fmap snd (fitness_of w r1, r1) (fitness_of w r2, r2)).
  apply sorted_pairs_stable.
  - by apply (before_fmap (λ r, (fitness_of w r, r))).
  - unfold goes_first, Qltb. cbn [fst].
    apply negb_false_iff. by apply Qle_bool_iff.
Qed.

Lemma assign_ranks start (s : list ref) w :
  NoDup s →
  (∀ r, r ∈ s → is_Some (individuals w !! r)) →
  ∃ w',
    for_each (enumerate_from start s)
      (λ '(ranking, individual),
         Individual_update_ranking individual (inject_Z (Z.of_nat ranking)))
      w = (Ok tt, w')
    ∧ populations w' = populations w
    ∧ rng w' = rng w
    ∧ (∀ k r i, s !! k = Some r → individuals w !! r = Some i →
         individuals w' !! r
         = Some (with_rank (inject_Z (Z.of_nat (start + k))) i))
    ∧ (∀ r, r ∉ s → individuals w' !! r = individuals w !! r).
Proof.
  revert start w. induction s as [| x s IH]; intros start w Hnd Hwf.
  - exists w. cbn. repeat split; try done.
  - apply NoDup_cons in Hnd as [Hx Hnd].
    destruct (Hwf x) as [ix Ex]; [set_solver |].
    cbn [enumerate_from for_each]. unfold Individual_update_ranking at 1.
    msimpl. rewrite (load_some _ _ _ Ex). unfold store at 1. msimpl.
    set (w1 := mkWorld _ _ _).
    destruct (IH (S start) w1 Hnd) as (w' & E & Hp & Hg & Hin & Hout).
    { intros r Hr. cbn. rewrite list_lookup_insert_ne by set_solver.
      apply Hwf. set_solver. }
    exists w'. split; [exact E |]. split; [done |]. split; [done |].
    split.
    + intros [| k] r i Hk Hi; simplify_eq/=.
      * rewrite Hout by done. cbn.
        rewrite list_lookup_insert_eq by (by eapply lookup_lt_Some).
        by rewrite Nat.add_0_r.
      * assert (r ≠ x) by (apply list_elem_of_lookup_2 in Hk; set_solver).
        replace (start + S k) with (S start + k) by lia.
        apply Hin; [done |]. cbn. by rewrite list_lookup_insert_ne.
    + intros r Hr. rewrite Hout by set_solver. cbn.
      rewrite list_lookup_insert_ne by set_solver. done.
Qed.

Lemma load_population_some p P w :
  populations w !! p = Some P → load_population p w = (Ok P, w).
Proof. intros E. unfold load_population. by rewrite E. Qed.

Lemma rank_of_written w r q i :
  individuals w !! r = Some (with_rank q i) → rank_of w r = q.
Proof. intros E. unfold rank_of. by rewrite E. Qed.

(** C7, amended.  On a population of [N] candidates, [N] distinct
    objects of the store, [update_ranking] returns and gives every member a rank in
    [{0, ..., N-1}]; every rank of that range is taken, and by one
    member only.  A member of rank 0 has maximal fitness, a member of
    rank [N-1] minimal fitness, and more generally a smaller rank never
    goes with a smaller fitness.  Of two members with equal fitness,
    the one that comes first in the population gets the smaller rank.
    Nothing but the ranks changes. *)
Theorem update_ranking_assigns_ranks self w P members :
  populations w !! self = Some P →
  _population P = Members members →
  NoDup members →
  (∀ r, r ∈ members → is_Some (individuals w !! r)) →
  ∃ w',
    update_ranking self w = (Ok tt, w')
    ∧ (∀ r, r ∈ members →
         ∃ k, k < length members ∧ rank_of w' r = inject_Z (Z.of_nat k))
    ∧ (∀ k, k < length members →
         ∃ r, r ∈ members ∧ rank_of w' r = inject_Z (Z.of_nat k))
    ∧ (∀ r1 r2, r1 ∈ members → r2 ∈ members →
         (rank_of w' r1 == rank_of w' r2)%Q → r1 = r2)
    ∧ (∀ r r', r ∈ members → r' ∈ members →
         (rank_of w' r == 0)%Q → (fitness_of w r' <= fitness_of w r)%Q)
    ∧ (∀ r r', r ∈ members → r' ∈ members →
         (rank_of w' r == inject_Z (Z.of_nat (length members - 1)))%Q →
         (fitness_of w r <= fitness_of w r')%Q)
    ∧ (∀ r1 r2, r1 ∈ members → r2 ∈ members →
         (rank_of w' r1 < rank_of w' r2)%Q →
         (fitness_of w r2 <= fitness_of w r1)%Q)
    ∧ (∀ i j r1 r2, members !! i = Some r1 → members !! j = Some r2 →
         (i < j)%nat → (fitness_of w r1 == fitness_of w r2)%Q →
         (rank_of w' r1 < rank_of w' r2)%Q)
    ∧ (∀ r i, r ∈ members → individuals w !! r = Some i →
         individuals w' !! r = Some (with_rank (rank_of w' r) i))
    ∧ (∀ r, r ∉ members → individuals w' !! r = individuals w !! r)
    ∧ populations w' = populations w.
Proof.
  intros EP Emem Hnd Hwf.
  set (s := by_fitness w members).
  assert (Hperm : s ≡ₚ members) by apply by_fitness_perm.
  assert (Hnd' : NoDup s) by (by rewrite Hperm).
  assert (Hwf' : ∀ r, r ∈ s → is_Some (individuals w !! r))
    by (intros r Hr; apply Hwf; by rewrite <- Hperm).
  destruct (assign_ranks 0 s w Hnd' Hwf')
    as (w' & Eloop & Hpops & _ & Hin & Hout).
  (* the rank of the member at position [k] of the sorted list *)
  assert (Hrank : ∀ k r, s !! k = Some r →
                         rank_of w' r = inject_Z (Z.of_nat k)).
  { intros k r Hk. destruct (Hwf' r) as [i Ei];
      [by eapply list_elem_of_lookup_2 |].
    eapply rank_of_written. by apply Hin. }
  assert (Hpos : ∀ r, r ∈ members → ∃ k, s !! k = Some r ∧ k < length members).
  { intros r Hr. rewrite <- Hperm in Hr.
    apply list_elem_of_lookup_1 in Hr as [k Hk]. exists k. split; [done |].
    rewrite <- Hperm. by eapply lookup_lt_Some. }
  assert (Hk_eq : ∀ a b : nat,
             (inject_Z (Z.of_nat a) == inject_Z (Z.of_nat b))%Q → a = b).
  { intros a b H. pose proof (proj1 (inject_Z_injective _ _) H). lia. }
  assert (Hk_lt : ∀ a b : nat,
             (inject_Z (Z.of_nat a) < inject_Z (Z.of_nat b))%Q → (a < b)%nat).
  { intros a b H. rewrite <- Zlt_Qlt in H. lia. }
  exists w'. split.
  { unfold update_ranking. msimpl. rewrite (load_population_some _ _ _ EP).
    rewrite Emem. cbn [iterate]. msimpl.
    rewrite (sorted_by_fitness _ _ Hwf). exact Eloop. }
  split.
  { intros r Hr. destruct (Hpos r Hr) as (k & Hk & Hlt).
    exists k. split; [done |]. by apply Hrank. }
  split.
  { intros k Hk. rewrite <- Hperm in Hk.
    apply lookup_lt_is_Some_2 in Hk as [r Hr]. exists r. split.
    - rewrite <- Hperm. by eapply list_elem_of_lookup_2.
    - by apply Hrank. }
  split.
  { intros r1 r2 H1 H2 Heq.
    destruct (Hpos r1 H1) as (k1 & Hk1 & _).
    destruct (Hpos r2 H2) as (k2 & Hk2 & _).
    rewrite (Hrank _ _ Hk1), (Hrank _ _ Hk2) in Heq.
    apply Hk_eq in Heq. congruence. }
  split.
  { intros r r' H1 H2 Hzero.
    destruct (Hpos r H1) as (k & Hk & _).
    destruct (Hpos r' H2) as (k' & Hk' & _).
    rewrite (Hrank _ _ Hk) in Hzero. apply (Hk_eq k 0%nat) in Hzero.
    subst k. destruct k' as [| k'].
    - assert (r' = r) by congruence. subst. apply Qle_refl.
    - eapply by_fitness_descending; [exact Hk | exact Hk' | lia]. }
  split.
  { intros r r' H1 H2 Hlast.
    destruct (Hpos r H1) as (k & Hk & _).
    destruct (Hpos r' H2) as (k' & Hk' & Hlt').
    rewrite (Hrank _ _ Hk) in Hlast. apply Hk_eq in Hlast. subst k.
    destruct (decide (k' = length members - 1)) as [-> | Hne].
    - assert (r' = r) by congruence. subst. apply Qle_refl.
    - eapply by_fitness_descending; [exact Hk' | exact Hk | lia]. }
  split.
  { intros r1 r2 H1 H2 Hlt.
    destruct (Hpos r1 H1) as (k1 & Hk1 & _).
    destruct (Hpos r2 H2) as (k2 & Hk2 & _).
    rewrite (Hrank _ _ Hk1), (Hrank _ _ Hk2) in Hlt. apply Hk_lt in Hlt.
    by eapply by_fitness_descending. }
  split.
  { intros i j r1 r2 Hi Hj Hij Heq.
    assert (Hb : before r1 r2 s).
    { apply by_fitness_stable; [by eapply lookup_before |].
      rewrite Heq. apply Qle_refl. }
    apply before_lookup in Hb as (a & b & Hab & Ha & Hb).
    rewrite (Hrank _ _ Ha), (Hrank _ _ Hb). rewrite <- Zlt_Qlt. lia. }
  split.
  { intros r i Hr Ei. destruct (Hpos r Hr) as (k & Hk & _).
    rewrite (Hrank _ _ Hk). by apply Hin. }
  split; [| done].
  intros r Hr. apply Hout. by rewrite Hperm.
Qed.
End Ranking.

Lemma update_ranking_assigns_ranks_witness :
  ∃ w',
    update_ranking 0 Toy.ranked_world = (Ok tt, w')
    ∧ (∀ r, r ∈ [0; 1; 2] →
         ∃ k, k < 3 ∧ rank_of w' r = inject_Z (Z.of_nat k))
    ∧ (∀ i j r1 r2, [0; 1; 2] !! i = Some r1 → [0; 1; 2] !! j = Some r2 →
         (i < j)%nat →
         (fitness_of Toy.ranked_world r1 == fitness_of Toy.ranked_world r2)%Q →
         (rank_of w' r1 < rank_of w' r2)%Q).
Proof.
  destruct (update_ranking_assigns_ranks 0 Toy.ranked_world
              (Toy.population_of [0; 1; 2]) [0; 1; 2])
    as (w' & E & Hrange & _ & _ & _ & _ & _ & Hties & _).
  - reflexivity.
  - reflexivity.
  - apply (bool_decide_unpack _). reflexivity.
  - intros r Hr. repeat (apply elem_of_cons in Hr as [-> | Hr]; [by eexists |]).
    by apply elem_of_nil in Hr.
  - exists w'. split; [exact E |]. split; [exact Hrange | exact Hties].
Defined.

(** The ranks on fitness 1, 3, 3: the two candidates of fitness 3 take
    ranks 0 and 1 in their input order, the candidate of fitness 1 takes
    rank 2. *)
Example update_ranking_on_a_tie :
  let w' := (update_ranking 0 Toy.ranked_world).2 in
  rank_of w' <$> [0; 1; 2] = [2%Q; 0%Q; 1%Q].
Proof. vm_compute. reflexivity. Qed.

(** C7 as stated fails on a population that lists an object twice:
    on [[a, b, a]] with [a] fitter than [b], the sorted order is
    [[a, a, b]], [a] is given rank 0 and then rank 1, [b] rank 2.  The
    ranks of the three entries are 1, 2 and 1: they are not unique and
    no member has rank 0. *)
Lemma update_ranking_repeated_member_skips_a_rank :
  let w' := (update_ranking 0 Toy.repeated_world).2 in
  (update_ranking 0 Toy.repeated_world).1 = Ok tt
  ∧ rank_of w' <$> [0; 1; 0] = [1%Q; 2%Q; 1%Q]
  ∧ ¬ (∃ r, r ∈ [0; 1; 0] ∧ (rank_of w' r == 0)%Q).
Proof.
  split; [vm_compute; reflexivity |]. split; [vm_compute; reflexivity |].
  intros (r & Hr & Hzero).
  repeat (apply elem_of_cons in Hr as [-> | Hr];
          [vm_compute in Hzero; discriminate Hzero |]).
  by apply elem_of_nil in Hr.
Qed.

(** ** Fitness of a population *)

Section Fitness.
Context {collaborators : Collaborators} {generator : Generator}.





End Fitness.



(** ** Construction of a population *)

Section Construction.
Context {collaborators : Collaborators} {generator : Generator}.

Lemma new_each (individual : Net → list gene → Individual)
    (samples : list (Net * list gene)) w :
  map_each (λ '(net, genotype), new (individual net genotype)) samples w
  = (Ok (seq (length (individuals w)) (length samples)),
     mkWorld (individuals w
              ++ ((λ '(net, genotype), individual net genotype) <$> samples))
             (populations w) (rng w)).
Proof.
  revert w. induction samples as [| [n g] samples IH]; intros w.
  - cbn. rewrite app_nil_r. by destruct w.
  - cbn [map_each]. msimpl. unfold new at 1.
    rewrite IH. cbn [individuals populations rng].
    rewrite length_app, Nat.add_1_r. cbn [length seq fmap list_fmap].
    by rewrite <- app_assoc.
Qed.

(** C10, amended.  For every falsy [init_population] ([False] or an
    empty collection) the constructor stores the value it was given,
    unchecked, and does not consult the oracle, so an empty collection
    gives an empty population.  With [init_population=True] it stores a
    population generated from the 20 samples requested from the
    oracle, one new candidate per sample returned. *)
Theorem Population_init_by_truth_value space individual w :
  (∀ init_population,
     truthy init_population = false →
     Population_init space individual init_population w
     = (Ok (length (populations w)),
        mkWorld (individuals w)
                (populations w
                 ++ [mkPopulation space individual init_population ∅])
                (rng w)))
  ∧ (∀ architectures cells,
       generate_random_samples space 20 = Ok (architectures, cells) →
       let born :=
         (λ '(net, genotype), individual net genotype)
           <$> zip architectures (architecture_to_genotype <$> cells) in
       let generated := seq (length (individuals w)) (length born) in
       Population_init space individual (Flag true) w
       = (Ok (length (populations w)),
          mkWorld (individuals w ++ born)
                  (populations w
                   ++ [mkPopulation space individual (Members generated) ∅])
                  (rng w))
       ∧ length generated
         = length architectures `min` length cells).
Proof.
  split.
  - intros init_population Hfalsy. unfold Population_init.
    by rewrite Hfalsy.
  - intros architectures cells Hsamples born generated.
    split.
    + unfold Population_init. cbn [truthy]. unfold generate_population.
      msimpl. rewrite Hsamples. rewrite new_each.
      unfold new_population, generated, born. cbn [individuals populations rng].
      by rewrite length_fmap.
    + unfold generated, born.
      by rewrite length_seq, length_fmap, length_zip, length_fmap.
Qed.
End Construction.

Lemma Population_init_by_truth_value_witness :
  Population_init Toy.oracle Toy.factory (Flag false) Toy.pair_world
  = (Ok 0, mkWorld (individuals Toy.pair_world)
                   [Toy.population_holding (Flag false)]
                   (rng Toy.pair_world))
  ∧ ∃ w', Population_init Toy.oracle Toy.factory (Flag true) Toy.pair_world
          = (Ok 0, w')
          ∧ length (individuals w') = 22.
Proof.
  destruct (Population_init_by_truth_value Toy.oracle Toy.factory
              Toy.pair_world) as [Hstore Hgenerate].
  split.
  - apply (Hstore (Flag false)). reflexivity.
  - destruct (Hgenerate (replicate 20 "net") (replicate 20 "cell") eq_refl)
      as [E _].
    eexists. split; [exact E | reflexivity].
Defined.

(** C10 as stated fails on the empty collection: it is falsy, and the
    constructor stores it as the population, without generating one. *)
Lemma Population_init_stores_empty_collection :
  Population_init Toy.oracle Toy.factory (Members []) Toy.empty_world
  = (Ok 0, mkWorld [] [Toy.population_of []] (rng Toy.empty_world)).
Proof. reflexivity. Qed.

(** ** Normalization of a score *)

Section Normalization.
Context {collaborators : Collaborators} {generator : Generator}.

Lemma map_each_pure {A B} (f : A → Py B) (g : A → B) (xs : list A) w :
  (∀ x, x ∈ xs → f x w = (Ok (g x), w)) →
  map_each f xs w = (Ok (g <$> xs), w).
Proof.
  induction xs as [| x xs IH]; intros H; [done |].
  cbn [map_each]. msimpl. rewrite (H x) by set_solver.
  fold (@map_each world A B).
  rewrite IH by (intros; apply H; set_solver). done.
Qed.

Lemma sorted_pure (key : ref → Py Q) (g : ref → Q) (xs : list ref)
    reverse w :
  (∀ r, r ∈ xs → key r w = (Ok (g r), w)) →
  sorted xs key reverse w
  = (Ok (sorted_pairs reverse ((λ r, (g r, r)) <$> xs)).*2, w).
Proof.
  intros H. unfold sorted. msimpl.
  rewrite (map_each_pure _ _ _ _ H). by rewrite zip_fmap_self.
Qed.

Lemma getattr_some r i score q w :
  individuals w !! r = Some i → read_attribute i score = Ok q →
  getattr r score w = (Ok q, w).
Proof.
  intros E Hq. unfold getattr. msimpl. by rewrite (load_some _ _ _ E), Hq.
Qed.

Lemma extends_refl w : extends w w.
Proof. by split. Qed.

Lemma extends_trans w1 w2 w3 : extends w1 w2 → extends w2 w3 → extends w1 w3.
Proof.
  intros (? & ? & ?) (? & ? & ?).
  split; [by etrans |]. split; congruence.
Qed.

Lemma extends_lookup w w' r i :
  extends w w' → individuals w !! r = Some i → individuals w' !! r = Some i.
Proof. intros [Hpre _] E. by eapply prefix_lookup_Some. Qed.

Lemma deepcopy_extends r i w :
  individuals w !! r = Some i →
  ∃ w', deepcopy r w = (Ok (length (individuals w)), w')
        ∧ extends w w'
        ∧ individuals w' !! length (individuals w) = Some i.
Proof.
  intros E. rewrite (deepcopy_some _ _ _ E). eexists. split; [done |].
  split; [| apply lookup_fresh].
  split; [by apply prefix_app_r | done].
Qed.

Lemma deepcopy_list_extends (l : list ref) memo w :
  (∀ r, r ∈ l → is_Some (individuals w !! r)) →
  ∃ l' w', deepcopy_list memo l w = (Ok l', w')
           ∧ extends w w' ∧ length l' = length l.
Proof.
  revert memo w. induction l as [| r l IH]; intros memo w Hwf.
  - exists [], w. split; [done |]. split; [apply extends_refl | done].
  - cbn [deepcopy_list]. destruct (memo !! r) as [r' |].
    + destruct (IH memo w) as (l' & w' & E & Hext & Hlen);
        [intros; apply Hwf; set_solver |].
      msimpl. rewrite E. exists (r' :: l'), w'.
      split; [done |]. split; [done | cbn; congruence].
    + destruct (Hwf r) as [i Ei]; [set_solver |].
      destruct (deepcopy_extends _ _ _ Ei) as (w1 & E1 & Hext1 & _).
      msimpl. rewrite E1.
      match goal with
      | |- context [deepcopy_list ?m l w1] =>
          destruct (IH m w1) as (l' & w' & E & Hext & Hlen)
      end.
      { intros r0 Hr0. destruct (Hwf r0) as [i0 Ei0]; [set_solver |].
        exists i0. by eapply extends_lookup. }
      rewrite E. exists (length (individuals w) :: l'), w'.
      split; [done |]. split; [by eapply extends_trans | cbn; congruence].
Qed.

Lemma min_max_names score : "min_" +:+ score ≠ "max_" +:+ score.
Proof. cbn. by intros [=]. Qed.

Lemma readable_getattr w score members r :
  readable w score members → r ∈ members →
  getattr r score w = (Ok (score_of w score r), w).
Proof.
  intros Hread Hr. destruct (Hread r Hr) as (i & q & Ei & Eq).
  rewrite (getattr_some _ _ _ _ _ Ei Eq). unfold score_of.
  by rewrite Ei, Eq.
Qed.

Lemma set_extremes_some self score w P members :
  populations w !! self = Some P →
  _population P = Members members →
  members ≠ [] →
  readable w score members →
  ∃ lowest highest,
    lowest ∈ members ∧ highest ∈ members
    ∧ set_extremes self score w
      = (Ok tt,
         mkWorld (individuals w)
           (<[self := with_extreme ("min_" +:+ score)
                        (score_of w score lowest)
                        (with_extreme ("max_" +:+ score)
                           (score_of w score highest) P)]>
              (populations w))
           (rng w)).
Proof.
  intros EP Emem Hne Hread.
  set (s := (sorted_pairs false
               ((λ r, (score_of w score r, r)) <$> members)).*2).
  assert (Hperm : s ≡ₚ members).
  { unfold s. rewrite sorted_pairs_perm, <- list_fmap_compose.
    by rewrite list_fmap_id. }
  assert (Hs : s ≠ []).
  { intros E. rewrite E in Hperm. by apply Permutation_nil_l in Hperm. }
  destruct (proj2 (head_is_Some s) Hs) as [lowest Elow].
  destruct (proj2 (last_is_Some s) Hs) as [highest Ehigh].
  assert (Hlow : lowest ∈ members)
    by (rewrite <- Hperm; by apply head_Some_elem_of).
  assert (Hhigh : highest ∈ members)
    by (rewrite <- Hperm; by apply last_Some_elem_of).
  exists lowest, highest. split; [done |]. split; [done |].
  unfold set_extremes, individuals_of. msimpl.
  rewrite (load_population_some _ _ _ EP), Emem. cbn [iterate]. msimpl.
  rewrite (sorted_pure _ (score_of w score) members false w)
    by (intros; by eapply readable_getattr).
  fold s. unfold first_of, last_of. rewrite Elow. msimpl.
  rewrite (readable_getattr _ _ _ _ Hread Hlow). rewrite Ehigh. msimpl.
  rewrite (readable_getattr _ _ _ _ Hread Hhigh).
  unfold setattr_population. msimpl.
  rewrite (load_population_some _ _ _ EP).
  unfold store_population at 1. msimpl.
  unfold load_population. cbn [populations].
  rewrite list_lookup_insert_eq by (by eapply lookup_lt_Some).
  unfold store_population. msimpl. cbn [individuals populations rng].
  by rewrite list_insert_insert_eq.
Qed.

(** With extremes that coincide, the first member divides by zero. *)
Lemma normalize_scores_flat_extremes depth self score inplace w P members
    low high :
  populations w !! self = Some P →
  _population P = Members members →
  members ≠ [] →
  readable w score members →
  extremes P !! ("min_" +:+ score) = Some low →
  extremes P !! ("max_" +:+ score) = Some high →
  (low == high)%Q →
  (normalize_scores (S depth) self score inplace w).1
  = Raise ZeroDivisionError.
Proof.
  intros EP Emem Hne Hread Elow Ehigh Heq.
  destruct members as [| m rest]; [done |].
  destruct (Hread m) as (i & q & Ei & Eq); [set_solver |].
  cbn [normalize_scores]. unfold try_except_AttributeError.
  unfold getattr_population, individuals_of. msimpl.
  rewrite (load_population_some _ _ _ EP), Elow.
  rewrite (load_population_some _ _ _ EP), Ehigh.
  rewrite (load_population_some _ _ _ EP), Emem.
  cbn [deepcopy_members deepcopy_list]. rewrite lookup_empty. msimpl.
  destruct (deepcopy_extends _ _ _ Ei) as (w1 & E1 & Hext1 & Ecopy).
  rewrite E1.
  match goal with
  | |- context [deepcopy_list ?memo rest w1] =>
      destruct (deepcopy_list_extends rest memo w1)
        as (copies & w2 & E2 & Hext2 & _)
  end.
  { intros r Hr. destruct (Hread r) as (ir & _ & Er & _); [set_solver |].
    exists ir. by eapply extends_lookup. }
  rewrite E2. msimpl. cbn [iterate]. msimpl. rewrite map_each_cons.
  unfold minmax_individual at 1. msimpl.
  pose proof (extends_lookup _ _ _ _ Hext2 Ecopy) as Ecopy2.
  destruct (deepcopy_extends _ _ _ Ecopy2) as (w3 & E3 & Hext3 & _).
  rewrite E3.
  rewrite (getattr_some _ _ _ _ _ (extends_lookup _ _ _ _ Hext3 Ecopy2) Eq).
  unfold true_divide.
  assert (Hzero : Qeq_bool (high - low) 0 = true).
  { apply Qeq_bool_iff. rewrite Heq. ring. }
  by rewrite Hzero.
Qed.

Lemma first_use_misses self score w P :
  populations w !! self = Some P →
  extremes P !! ("min_" +:+ score) = None →
  getattr_population self ("min_" +:+ score) w = (Raise AttributeError, w).
Proof.
  intros EP Enone. unfold getattr_population. msimpl.
  by rewrite (load_population_some _ _ _ EP), Enone.
Qed.

(** On first use the body of the [try] fails at its first statement,
    and the call is the [except] clause. *)
Lemma normalize_scores_first_use depth self score inplace w P :
  populations w !! self = Some P →
  extremes P !! ("min_" +:+ score) = None →
  normalize_scores (S depth) self score inplace w
  = bind (set_extremes self score)
      (λ _, bind (normalize_scores depth self score true)
              (λ _, ret None)) w.
Proof.
  intros EP Enone. cbn [normalize_scores].
  unfold try_except_AttributeError.
  rewrite (bind_raise _ _ _ _ _ (first_use_misses _ _ _ _ EP Enone)).
  done.
Qed.

(** C5, what the code does.  On a population that is not empty and
    whose members all hold the same value of the score, the first
    [normalize_scores] computes equal extremes and then divides by
    their difference: the call ends in [ZeroDivisionError], which its
    [except AttributeError] does not handle. *)
Theorem normalize_scores_divides_by_zero depth self score inplace w P
    members v :
  populations w !! self = Some P →
  _population P = Members members →
  members ≠ [] →
  extremes P !! ("min_" +:+ score) = None →
  readable w score members →
  (∀ r, r ∈ members → (score_of w score r == v)%Q) →
  (normalize_scores (S (S depth)) self score inplace w).1
  = Raise ZeroDivisionError.
Proof.
  intros EP Emem Hne Enone Hread Hflat.
  rewrite (normalize_scores_first_use _ _ _ _ _ _ EP Enone).
  destruct (set_extremes_some _ _ _ _ _ EP Emem Hne Hread)
    as (lowest & highest & Hlow & Hhigh & E).
  rewrite (bind_ok _ _ _ _ _ E). set (w1 := mkWorld _ _ _).
  pose proof (lookup_lt_Some _ _ _ EP) as Hself.
  pose proof (normalize_scores_flat_extremes depth self score true w1
                (with_extreme ("min_" +:+ score) (score_of w score lowest)
                   (with_extreme ("max_" +:+ score)
                      (score_of w score highest) P))
                members (score_of w score lowest)
                (score_of w score highest)) as Hflat1.
  unfold bind.
  destruct (normalize_scores (S depth) self score true w1) as [res w2].
  cbn [fst] in Hflat1. rewrite Hflat1; [done | ..].
  - cbn. by apply list_lookup_insert_eq.
  - done.
  - done.
  - exact Hread.
  - cbn. apply lookup_insert_eq.
  - cbn. rewrite lookup_insert_ne by apply min_max_names.
    apply lookup_insert_eq.
  - rewrite (Hflat _ Hlow), (Hflat _ Hhigh). reflexivity.
Qed.

(** C6, what the code does.  On first use, when the extremes are not
    cached yet, [normalize_scores(score, inplace=False)] is the call
    with [inplace=True]: the [except] clause sets the extremes, calls
    the method again without passing [inplace] on, and returns nothing.
    No list of copies comes back. *)
Theorem normalize_scores_first_use_ignores_inplace depth self score w P :
  populations w !! self = Some P →
  extremes P !! ("min_" +:+ score) = None →
  normalize_scores depth self score false w
  = normalize_scores depth self score true w
  ∧ ∀ copies,
      (normalize_scores depth self score false w).1 ≠ Ok (Some copies).
Proof.
  intros EP Enone. destruct depth as [| depth]; [by split |].
  rewrite !(normalize_scores_first_use _ _ _ _ _ _ EP Enone).
  split; [done |]. intros copies. unfold bind.
  destruct (set_extremes self score w) as [[[] | e] w1]; [| done].
  destruct (normalize_scores depth self score true w1) as [[o | e] w2];
    done.
Qed.
End Normalization.

Lemma normalize_scores_divides_by_zero_witness :
  (normalize_scores 2 0 "fitness" true Toy.flat_world).1
  = Raise ZeroDivisionError.
Proof.
  apply (normalize_scores_divides_by_zero 0 0 "fitness" true Toy.flat_world
           (Toy.population_of [0; 1]) [0; 1] 3%Q).
  - reflexivity.
  - reflexivity.
  - discriminate.
  - reflexivity.
  - intros r Hr.
    repeat (apply elem_of_cons in Hr as [-> | Hr];
            [eexists _, _; split; reflexivity |]).
    by apply elem_of_nil in Hr.
  - intros r Hr.
    repeat (apply elem_of_cons in Hr as [-> | Hr]; [reflexivity |]).
    by apply elem_of_nil in Hr.
Defined.

Lemma normalize_scores_first_use_ignores_inplace_witness :
  normalize_scores 2 0 "age" false Toy.spread_world
  = normalize_scores 2 0 "age" true Toy.spread_world
  ∧ ∀ copies,
      (normalize_scores 2 0 "age" false Toy.spread_world).1
      ≠ Ok (Some copies).
Proof.
  apply (normalize_scores_first_use_ignores_inplace 2 0 "age"
           Toy.spread_world (Toy.population_of [0; 1; 2])).
  - reflexivity.
  - reflexivity.
Defined.

(** The first [normalize_scores("age", inplace=False)] on ages 2, 4, 6:
    the call returns [None], and the population now holds three new
    candidates, of ages 0, 1/2 and 1. *)
Example normalize_scores_first_use_replaces_members :
  let returned := (normalize_scores 2 0 "age" false Toy.spread_world).1 in
  let w' := (normalize_scores 2 0 "age" false Toy.spread_world).2 in
  returned = Ok None
  ∧ members_of w' 0 = Some (Members [6; 7; 8])
  ∧ Forall2 Qeq (score_of w' "age" <$> [6; 7; 8]) [0; 1 # 2; 1]%Q
  ∧ members_of Toy.spread_world 0 = Some (Members [0; 1; 2]).
Proof.
  vm_compute. repeat split. repeat constructor.
Qed.

(** Once the extremes are cached, the call with [inplace=False] returns
    the copies and leaves the population as it is. *)
Example normalize_scores_second_use_returns_copies :
  let w1 := (set_extremes 0 "age" Toy.spread_world).2 in
  let returned := (normalize_scores 2 0 "age" false w1).1 in
  let w' := (normalize_scores 2 0 "age" false w1).2 in
  returned = Ok (Some [6; 7; 8])
  ∧ members_of w' 0 = Some (Members [0; 1; 2])
  ∧ take 3 (individuals w') = individuals Toy.spread_world.
Proof. vm_compute. repeat split. Qed.

(** The score [fitness] is a property without a setter: [setattr] raises
    [AttributeError] inside the [try], the [except] clause calls the
    method again, and the recursion ends at the interpreter's limit. *)
Example normalize_scores_on_a_property :
  (normalize_scores 40 0 "fitness" true Toy.spread_world).1
  = Raise RecursionError.
Proof. vm_compute. reflexivity. Qed.

(** * Further properties of the module *)

(** ** Selection *)

Section Selection.
Context {collaborators : Collaborators} {generator : Generator}.

Lemma choice_from_list {A} (l : list A) (size : Z) w :
  l ≠ [] → (0 ≤ size)%Z →
  ∃ chosen w',
    np_random_choice (PyList l) size w = (Ok chosen, w')
    ∧ length chosen = Z.to_nat size
    ∧ (∀ x, x ∈ chosen → x ∈ l)
    ∧ same_store w w'.
Proof.
  intros Hne Hsize. unfold np_random_choice.
  rewrite bool_decide_eq_false_2 by done. cbn [andb].
  destruct (Z.ltb_spec size 0) as [? | _]; [lia |].
  assert (Hpos : (0 < Z.of_nat (length l))%Z)
    by (destruct l; [done | simpl; lia]).
  destruct (randint_n_in_range _ (Z.to_nat size) w Hpos)
    as (idx & w' & E & Hlen & Hall & Hs).
  rewrite (bind_ok _ _ _ _ _ E).
  destruct (take_each_in_range l idx w' Hall) as (picked & E' & Hlen' & Hin).
  exists picked, w'. split; [done |]. split; [congruence | by split].
Qed.

(** [tournament] on a population that is not empty returns exactly
    [tournament_size] candidates for any size that is not negative, zero
    included; all of them are members, and no object of the store
    changes. *)
Theorem tournament_returns_tournament_size self (population : list ref) w :
  population ≠ [] → (0 ≤ tournament_size self)%Z →
  ∃ chosen w',
    tournament self population w = (Ok chosen, w')
    ∧ length chosen = Z.to_nat (tournament_size self)
    ∧ (∀ r, r ∈ chosen → r ∈ population)
    ∧ same_store w w'.
Proof. intros Hne Hsize. by apply choice_from_list. Qed.

(** [tournament] fails exactly when the size is negative, or when the
    population is empty and the size is not zero; the failure is a
    [ValueError] and nothing has been drawn. *)
Theorem tournament_fails_iff self (population : list ref) w :
  (∃ msg, tournament self population w = (Raise (ValueError msg), w))
  ↔ (tournament_size self < 0)%Z
    ∨ (population = [] ∧ tournament_size self ≠ 0%Z).
Proof.
  split.
  - intros [msg Hfail].
    destruct (Z.ltb_spec (tournament_size self) 0) as [? | Hsize];
      [by left | right].
    destruct (decide (population = [])) as [-> | Hne].
    + split; [done |]. intros Hzero. revert Hfail.
      unfold tournament, np_random_choice. rewrite Hzero. done.
    + destruct (choice_from_list population (tournament_size self) w
                  Hne Hsize) as (chosen & w' & E & _).
      unfold tournament in Hfail. by rewrite E in Hfail.
  - unfold tournament, np_random_choice. intros [Hneg | [-> Hnz]].
    + destruct (bool_decide (population = []) && _); [by eexists |].
      destruct (Z.ltb_spec (tournament_size self) 0); [by eexists | lia].
    + rewrite bool_decide_eq_true_2 by done.
      destruct (Z.eqb_spec (tournament_size self) 0); [done | by eexists].
Qed.
End Selection.

Lemma tournament_returns_tournament_size_witness :
  ∃ chosen w',
    tournament Toy.operators [0; 1; 2] Toy.ranked_world = (Ok chosen, w')
    ∧ length chosen = Z.to_nat (tournament_size Toy.operators)
    ∧ (∀ r, r ∈ chosen → r ∈ [0; 1; 2])
    ∧ same_store Toy.ranked_world w'.
Proof.
  apply (tournament_returns_tournament_size Toy.operators [0; 1; 2]
           Toy.ranked_world).
  - discriminate.
  - vm_compute. discriminate.
Defined.

(** ** The fittest members *)

Section Fittest.
Context {collaborators : Collaborators} {generator : Generator}.

(** The head of a list sorted in descending order is the first of its
    greatest elements. *)
Lemma head_sorted_pairs_descending {A} (l : list (Q * A)) p :
  head (sorted_pairs true l) = Some p →
  ∃ l1 l2,
    l = (l1 ++ p :: l2)%list
    ∧ Forall (λ y, (y.1 < p.1)%Q) l1
    ∧ Forall (λ y, (y.1 <= p.1)%Q) l2.
Proof.
  revert p. induction l as [| x l IH]; intros p; [done |].
  change (sorted_pairs true (x :: l))
    with (sorted_insert true x (sorted_pairs true l)).
  destruct (sorted_pairs true l) as [| y s'] eqn:Es.
  - intros [= <-].
    assert (l = []) as ->.
    { pose proof (sorted_pairs_perm true l) as Hp. rewrite Es in Hp.
      by apply Permutation_nil_l in Hp. }
    by exists [], [].
  - destruct (IH y eq_refl) as (l1 & l2 & -> & H1 & H2).
    cbn [sorted_insert]. unfold goes_first, Qltb.
    destruct (Qle_bool y.1 x.1) eqn:E; cbn [negb head].
    + intros [= <-]. apply Qle_bool_iff in E.
      exists [], (l1 ++ y :: l2)%list. split; [done |]. split; [done |].
      apply Forall_app. split.
      * eapply Forall_impl; [exact H1 |]. intros z Hz.
        apply Qle_trans with y.1; [by apply Qlt_le_weak | done].
      * constructor; [done |].
        eapply Forall_impl; [exact H2 |]. intros z Hz.
        by apply Qle_trans with y.1.
    + intros [= <-]. exists (x :: l1), l2. split; [done |].
      split; [| done]. constructor; [| done].
      apply Qnot_le_lt. intros Hle. apply Qle_bool_iff in Hle. congruence.
Qed.

(** The first [m] members of the ranking. *)
Lemma top_of_ranking w (members : list ref) m :
  let top := take m (by_fitness w members) in
  length top = m `min` length members
  ∧ (∀ r, r ∈ top → r ∈ members)
  ∧ (∀ i j r1 r2, top !! i = Some r1 → top !! j = Some r2 → i < j →
       (fitness_of w r2 <= fitness_of w r1)%Q)
  ∧ (∀ r r', r ∈ top → r' ∈ members → r' ∉ top →
       (fitness_of w r' <= fitness_of w r)%Q)
  ∧ top ++ drop m (by_fitness w members) ≡ₚ members.
Proof.
  intros top. unfold top.
  pose proof (by_fitness_perm w members) as Hperm.
  split; [by rewrite length_take, Hperm |].
  split.
  { intros r Hr. rewrite <- Hperm. apply elem_of_take in Hr as (i & Hi & _).
    by eapply list_elem_of_lookup_2. }
  split.
  { intros i j r1 r2 Hi Hj Hij.
    apply lookup_take_Some in Hi as [Hi _].
    apply lookup_take_Some in Hj as [Hj _].
    by eapply by_fitness_descending. }
  split; [| by rewrite take_drop].
  intros r r' Hr Hr' Hout.
  apply list_elem_of_lookup_1 in Hr as [i Hi].
  apply lookup_take_Some in Hi as [Hi Him].
  rewrite <- Hperm, <- (take_drop m (by_fitness w members)) in Hr'.
  apply elem_of_app in Hr' as [? | Hr']; [done |].
  apply list_elem_of_lookup_1 in Hr' as [j Hj]. rewrite lookup_drop in Hj.
  eapply by_fitness_descending; [exact Hi | exact Hj | lia].
Qed.

Lemma fittest_n_slice self n w P members :
  populations w !! self = Some P →
  _population P = Members members →
  (∀ r, r ∈ members → is_Some (individuals w !! r)) →
  fittest_n self n w = (Ok (slice_to n (by_fitness w members)), w).
Proof.
  intros EP Emem Hwf. unfold fittest_n. msimpl.
  rewrite (load_population_some _ _ _ EP), Emem. cbn [iterate]. msimpl.
  by rewrite (sorted_by_fitness _ _ Hwf).
Qed.

(** [fittest_n(n)] for [n ≥ 0] returns [min(n, N)] members in descending
    order of fitness; no member left out is fitter than a member
    returned; with the members left out they make up the population, so
    [n ≥ N] returns everyone.  The store does not change. *)
Theorem fittest_n_returns_the_fittest self n w P members :
  populations w !! self = Some P →
  _population P = Members members →
  (∀ r, r ∈ members → is_Some (individuals w !! r)) →
  (0 ≤ n)%Z →
  ∃ top rest,
    fittest_n self n w = (Ok top, w)
    ∧ length top = Z.to_nat n `min` length members
    ∧ (∀ i j r1 r2, top !! i = Some r1 → top !! j = Some r2 → i < j →
         (fitness_of w r2 <= fitness_of w r1)%Q)
    ∧ (∀ r r', r ∈ top → r' ∈ members → r' ∉ top →
         (fitness_of w r' <= fitness_of w r)%Q)
    ∧ top ++ rest ≡ₚ members.
Proof.
  intros EP Emem Hwf Hn.
  destruct (top_of_ranking w members (Z.to_nat n))
    as (Hlen & _ & Hdesc & Hbest & Hall).
  exists (take (Z.to_nat n) (by_fitness w members)),
         (drop (Z.to_nat n) (by_fitness w members)).
  split; [| done].
  rewrite (fittest_n_slice _ _ _ _ _ EP Emem Hwf). unfold slice_to.
  destruct (Z.ltb_spec n 0); [lia | done].
Qed.

(** [fittest_n(n)] for [n < 0] slices from the end: it returns the
    ranking without its last [-n] members, that is, all but the [-n]
    least fit, and nothing when [-n ≥ N]. *)
Theorem fittest_n_negative_drops_the_least_fit self n w P members :
  populations w !! self = Some P →
  _population P = Members members →
  (∀ r, r ∈ members → is_Some (individuals w !! r)) →
  (n < 0)%Z →
  ∃ top dropped,
    fittest_n self n w = (Ok top, w)
    ∧ length top = length members - Z.to_nat (- n)
    ∧ top ++ dropped ≡ₚ members
    ∧ (∀ r r', r ∈ top → r' ∈ dropped →
         (fitness_of w r' <= fitness_of w r)%Q).
Proof.
  intros EP Emem Hwf Hn.
  pose proof (by_fitness_perm w members) as Hperm.
  set (m := length members - Z.to_nat (- n)).
  exists (take m (by_fitness w members)), (drop m (by_fitness w members)).
  split.
  { rewrite (fittest_n_slice _ _ _ _ _ EP Emem Hwf). unfold slice_to.
    destruct (Z.ltb_spec n 0); [| lia].
    by rewrite (Permutation_length Hperm). }
  split; [rewrite length_take, (Permutation_length Hperm); lia |].
  split; [by rewrite take_drop |].
  intros r r' Hr Hr'.
  apply list_elem_of_lookup_1 in Hr as [i Hi].
  apply lookup_take_Some in Hi as [Hi Him].
  apply list_elem_of_lookup_1 in Hr' as [j Hj]. rewrite lookup_drop in Hj.
  eapply by_fitness_descending; [exact Hi | exact Hj | lia].
Qed.
End Fittest.

(** ** Parents *)

Section Parents.
Context {collaborators : Collaborators} {generator : Generator}.

(** The head of the ranking of a tournament is the first of its fittest
    contestants. *)
Lemma by_fitness_head w (drawn : list ref) p :
  head (by_fitness w drawn) = Some p →
  ∃ l1 l2,
    drawn = (l1 ++ p :: l2)%list
    ∧ Forall (λ r, (fitness_of w r < fitness_of w p)%Q) l1
    ∧ Forall (λ r, (fitness_of w r <= fitness_of w p)%Q) l2.
Proof.
  unfold by_fitness. intros H.
  destruct (sorted_pairs true ((λ r, (fitness_of w r, r)) <$> drawn))
    as [| q s'] eqn:Es; [discriminate H |].
  cbn in H. injection H as <-.
  destruct (head_sorted_pairs_descending
              ((λ r, (fitness_of w r, r)) <$> drawn) q)
    as (k1 & k2 & E & H1 & H2).
  { by rewrite Es. }
  apply fmap_app_inv in E as (l1 & d & -> & E & ->).
  symmetry in E. apply fmap_cons_inv in E as (p & l2 & -> & -> & ->).
  exists l1, l2. split; [done |]. cbn [snd fst] in *.
  split.
  - exact (proj1 (Forall_fmap (λ r, (fitness_of w r, r))
                    (λ y : Q * ref, (y.1 < fitness_of w p)%Q) l1) H1).
  - exact (proj1 (Forall_fmap (λ r, (fitness_of w r, r))
                    (λ y : Q * ref, (y.1 <= fitness_of w p)%Q) l2) H2).
Qed.

Lemma same_store_fitness w w' r :
  same_store w w' → fitness_of w' r = fitness_of w r.
Proof. intros [E _]. unfold fitness_of. by rewrite E. Qed.

(** One round of [obtain_parents]. *)
Lemma obtain_parents_round self (population : list ref) rounds parents w
    drawn w' :
  (∀ r, r ∈ population → is_Some (individuals w !! r)) →
  tournament self population w = (Ok drawn, w') →
  same_store w w' →
  (∀ r, r ∈ drawn → r ∈ population) →
  drawn ≠ [] →
  ∃ p l1 l2,
    obtain_parents_rounds self population (S rounds) parents w
    = obtain_parents_rounds self population rounds (parents ++ [p])%list w'
    ∧ drawn = (l1 ++ p :: l2)%list
    ∧ Forall (λ r, (fitness_of w r < fitness_of w p)%Q) l1
    ∧ Forall (λ r, (fitness_of w r <= fitness_of w p)%Q) l2.
Proof.
  intros Hwf Edraw Hs Hin Hne.
  assert (Hwf' : ∀ r, r ∈ drawn → is_Some (individuals w' !! r)).
  { intros r Hr. destruct Hs as [-> _]. by apply Hwf, Hin. }
  assert (Hhead : is_Some (head (by_fitness w' drawn))).
  { apply head_is_Some. intros E.
    pose proof (by_fitness_perm w' drawn) as Hp. rewrite E in Hp.
    by apply Permutation_nil_l in Hp. }
  destruct Hhead as [p Hp].
  destruct (by_fitness_head _ _ _ Hp) as (l1 & l2 & Ed & H1 & H2).
  exists p, l1, l2. split.
  - cbn [obtain_parents_rounds]. msimpl. rewrite Edraw.
    rewrite (sorted_by_fitness _ _ Hwf'). unfold first_of. by rewrite Hp.
  - split; [done |].
    split; (eapply Forall_impl; [eassumption |]); intros r;
      by rewrite !(same_store_fitness _ _ _ Hs).
Qed.

Lemma obtain_parents_rounds_select self (population : list ref) rounds
    parents w :
  population ≠ [] → (1 ≤ tournament_size self)%Z →
  (∀ r, r ∈ population → is_Some (individuals w !! r)) →
  ∃ winners w',
    obtain_parents_rounds self population rounds parents w
    = (Ok (parents ++ winners)%list, w')
    ∧ length winners = rounds
    ∧ (∀ p, p ∈ winners → p ∈ population)
    ∧ same_store w w'.
Proof.
  intros Hne Hsize. revert parents w.
  induction rounds as [| rounds IH]; intros parents w Hwf.
  - exists [], w. cbn. rewrite app_nil_r. repeat split; try done.
    intros p Hp. by apply elem_of_nil in Hp.
  - destruct (choice_from_list population (tournament_size self) w Hne)
      as (drawn & w1 & Edraw & Hlen & Hin & Hs1); [lia |].
    fold (tournament self population) in Edraw.
    assert (Hdrawn : drawn ≠ []).
    { intros ->. cbn in Hlen. lia. }
    destruct (obtain_parents_round self population rounds parents w drawn w1
                Hwf Edraw Hs1 Hin Hdrawn) as (p & l1 & l2 & E & Ed & _).
    destruct (IH (parents ++ [p])%list w1) as (winners & w' & E' & Hl & Hw & Hs).
    { intros r Hr. destruct Hs1 as [-> _]. by apply Hwf. }
    exists (p :: winners), w'. rewrite E, E', <- app_assoc.
    split; [done |]. split; [cbn; congruence |]. split.
    + intros q Hq. apply elem_of_cons in Hq as [-> | Hq]; [| by apply Hw].
      apply Hin. rewrite Ed. set_solver.
    + by eapply same_store_trans.
Qed.

(** [obtain_parents] on a population that is not empty, with a tournament
    size of at least 1, returns [n_parents] parents, all of them members
    of the population (the same member may come more than once); no
    object of the store changes. *)
Theorem obtain_parents_selects_members self (population : list ref)
    n_parents w :
  population ≠ [] → (1 ≤ tournament_size self)%Z →
  (∀ r, r ∈ population → is_Some (individuals w !! r)) →
  ∃ parents w',
    obtain_parents self population n_parents w = (Ok parents, w')
    ∧ length parents = Z.to_nat n_parents
    ∧ (∀ p, p ∈ parents → p ∈ population)
    ∧ same_store w w'.
Proof.
  intros Hne Hsize Hwf. unfold obtain_parents.
  destruct (obtain_parents_rounds_select self population
              (Z.to_nat n_parents) [] w Hne Hsize Hwf)
    as (winners & w' & E & Hlen & Hin & Hs).
  by exists winners, w'.
Qed.


(** With a tournament size of 0 every tournament is empty, and taking
    its winner fails: [obtain_parents] raises [IndexError] as soon as one
    parent is asked for, on any population. *)
Theorem obtain_parents_tournament_size_zero self (population : list ref)
    n_parents w :
  tournament_size self = 0%Z → (1 ≤ n_parents)%Z →
  obtain_parents self population n_parents w = (Raise IndexError, w).
Proof.
  intros Hzero Hn. unfold obtain_parents.
  destruct (Z.to_nat n_parents) as [| rounds] eqn:En; [lia |].
  cbn [obtain_parents_rounds]. unfold tournament, np_random_choice.
  rewrite Hzero. rewrite andb_false_r. cbn. by destruct w.
Qed.

(** On the empty population, with a tournament size that is not 0,
    [obtain_parents] raises the [ValueError] of the first draw. *)
Theorem obtain_parents_empty_population self n_parents w :
  tournament_size self ≠ 0%Z → (1 ≤ n_parents)%Z →
  raises_ValueError (obtain_parents self [] n_parents w).1.
Proof.
  intros Hnz Hn. unfold obtain_parents.
  destruct (Z.to_nat n_parents) as [| rounds] eqn:En; [lia |].
  cbn [obtain_parents_rounds].
  assert (E : tournament self [] w
              = (Raise (ValueError
                   "'a' cannot be empty unless no samples are taken"), w)).
  { unfold tournament, np_random_choice.
    rewrite bool_decide_eq_true_2 by done.
    by destruct (Z.eqb_spec (tournament_size self) 0). }
  rewrite (bind_raise _ _ _ _ _ E). by eexists.
Qed.
End Parents.

(** ** Extremes *)

Section Extremes.
Context {collaborators : Collaborators} {generator : Generator}.

Lemma by_score_perm w score (members : list ref) :
  by_score w score members ≡ₚ members.
Proof.
  unfold by_score. rewrite sorted_pairs_perm, <- list_fmap_compose.
  by rewrite list_fmap_id.
Qed.

(** In ascending order the head is a least element and the last element
    a greatest one. *)
Lemma by_score_bounds w score (members : list ref) lowest highest :
  head (by_score w score members) = Some lowest →
  last (by_score w score members) = Some highest →
  ∀ r, r ∈ members →
    (score_of w score lowest <= score_of w score r
     ∧ score_of w score r <= score_of w score highest)%Q.
Proof.
  unfold by_score.
  set (pairs := (λ r, (score_of w score r, r)) <$> members).
  intros Hhead Hlast r Hr.
  pose proof (sorted_pairs_sorted (A := ref) false pairs) as Hsorted.
  assert (Hkey : ∀ q, q ∈ sorted_pairs false pairs →
                      q.1 = score_of w score q.2).
  { intros q Hq. rewrite sorted_pairs_perm in Hq.
    apply list_elem_of_fmap in Hq as (x & -> & _). done. }
  assert (Hmem : (score_of w score r, r) ∈ sorted_pairs false pairs).
  { rewrite sorted_pairs_perm. unfold pairs.
    apply list_elem_of_fmap. by exists r. }
  assert (Hle : ∀ a b : Q * ref, may_precede false a b → (a.1 <= b.1)%Q).
  { intros a b H. unfold may_precede, goes_first, Qltb in H.
    apply negb_false_iff in H. by apply Qle_bool_iff. }
  split.
  - destruct (sorted_pairs false pairs) as [| q s'] eqn:Es; [done |].
    cbn in Hhead. injection Hhead as <-.
    rewrite <- (Hkey q) by apply list_elem_of_here.
    apply elem_of_cons in Hmem as [<- | Hmem]; [apply Qle_refl |].
    apply StronglySorted_inv in Hsorted as [_ Hall].
    rewrite Forall_forall in Hall.
    exact (Hle q (score_of w score r, r) (Hall _ Hmem)).
  - rewrite fmap_last in Hlast.
    destruct (last (sorted_pairs false pairs)) as [q |] eqn:El; [| done].
    cbn in Hlast. injection Hlast as <-.
    apply last_Some in El as [s' Es].
    assert (Hq : q ∈ (s' ++ [q])%list)
      by (apply elem_of_app; right; apply list_elem_of_here).
    rewrite <- (Hkey q) by (by rewrite Es).
    rewrite Es in Hmem, Hsorted.
    apply elem_of_app in Hmem as [Hmem | Hmem].
    + exact (Hle (score_of w score r, r) q
               (StronglySorted_app_1_elem_of _ s' [q] _ _ Hsorted Hmem
                  (list_elem_of_here _ _))).
    + apply list_elem_of_singleton in Hmem as <-. apply Qle_refl.
Qed.

Lemma set_extremes_result self score w P members :
  populations w !! self = Some P →
  _population P = Members members →
  members ≠ [] →
  readable w score members →
  ∃ lowest highest,
    head (by_score w score members) = Some lowest
    ∧ last (by_score w score members) = Some highest
    ∧ set_extremes self score w
      = (Ok tt,
         mkWorld (individuals w)
           (<[self := with_extreme ("min_" +:+ score)
                        (score_of w score lowest)
                        (with_extreme ("max_" +:+ score)
                           (score_of w score highest) P)]>
              (populations w))
           (rng w)).
Proof.
  intros EP Emem Hne Hread.
  pose proof (by_score_perm w score members) as Hperm.
  assert (Hs : by_score w score members ≠ []).
  { intros E. rewrite E in Hperm. by apply Permutation_nil_l in Hperm. }
  destruct (proj2 (head_is_Some _) Hs) as [lowest Elow].
  destruct (proj2 (last_is_Some _) Hs) as [highest Ehigh].
  assert (Hlow : lowest ∈ members)
    by (rewrite <- Hperm; by apply head_Some_elem_of).
  assert (Hhigh : highest ∈ members)
    by (rewrite <- Hperm; by apply last_Some_elem_of).
  exists lowest, highest. split; [done |]. split; [done |].
  unfold set_extremes, individuals_of. msimpl.
  rewrite (load_population_some _ _ _ EP), Emem. cbn [iterate]. msimpl.
  rewrite (sorted_pure _ (score_of w score) members false w)
    by (intros; by eapply readable_getattr).
  fold (by_score w score members).
  unfold first_of, last_of. rewrite Elow. msimpl.
  rewrite (readable_getattr _ _ _ _ Hread Hlow). rewrite Ehigh. msimpl.
  rewrite (readable_getattr _ _ _ _ Hread Hhigh).
  unfold setattr_population. msimpl.
  rewrite (load_population_some _ _ _ EP).
  unfold store_population at 1. msimpl.
  unfold load_population. cbn [populations].
  rewrite list_lookup_insert_eq by (by eapply lookup_lt_Some).
  unfold store_population. msimpl. cbn [individuals populations rng].
  by rewrite list_insert_insert_eq.
Qed.

Lemma extreme_of_some w (p : nat) P :
  populations w !! p = Some P →
  ∀ name, extreme_of w p name = extremes P !! name.
Proof. intros E name. unfold extreme_of. by rewrite E. Qed.

(** On a population that is not empty and whose members all hold the
    score, [set_extremes] stores under [min_<score>] and [max_<score>]
    the least and the greatest value of the score among the members,
    each of them the value of some member.  It changes no individual, no
    member list and no other cached attribute. *)
Theorem set_extremes_stores_min_and_max self score w P members :
  populations w !! self = Some P →
  _population P = Members members →
  members ≠ [] →
  readable w score members →
  plain_name score = true →
  ∃ low high w',
    set_extremes self score w = (Ok tt, w')
    ∧ extreme_of w' self ("min_" +:+ score) = Some low
    ∧ extreme_of w' self ("max_" +:+ score) = Some high
    ∧ (∀ r, r ∈ members →
         (low <= score_of w score r ∧ score_of w score r <= high)%Q)
    ∧ (∃ r, r ∈ members ∧ score_of w score r = low)
    ∧ (∃ r, r ∈ members ∧ score_of w score r = high)
    ∧ individuals w' = individuals w
    ∧ members_of w' self = Some (Members members)
    ∧ (∀ name, name ≠ "min_" +:+ score → name ≠ "max_" +:+ score →
         extreme_of w' self name = extreme_of w self name).
Proof.
  intros EP Emem Hne Hread _.
  destruct (set_extremes_result _ _ _ _ _ EP Emem Hne Hread)
    as (lowest & highest & Elow & Ehigh & E).
  pose proof (by_score_perm w score members) as Hperm.
  pose proof (lookup_lt_Some _ _ _ EP) as Hself.
  pose proof (extreme_of_some w self P EP) as Hold.
  eexists (score_of w score lowest), (score_of w score highest), _.
  split; [exact E |].
  unfold members_of. unfold extreme_of at 1 2 3.
  cbn [populations individuals].
  rewrite !list_lookup_insert_eq by done. cbn [extremes with_extreme].
  split; [apply lookup_insert_eq |].
  split.
  { rewrite lookup_insert_ne by apply min_max_names. apply lookup_insert_eq. }
  split; [by apply by_score_bounds |].
  split.
  { exists lowest. split; [| done].
    rewrite <- Hperm. by apply head_Some_elem_of. }
  split.
  { exists highest. split; [| done].
    rewrite <- Hperm. by apply last_Some_elem_of. }
  split; [done |]. split; [by rewrite <- Emem |].
  intros name Hmin Hmax. rewrite Hold.
  by rewrite !lookup_insert_ne.
Qed.

(** On the empty population [set_extremes] raises [IndexError] and stores
    nothing. *)
Lemma set_extremes_empty_population self score w P :
  populations w !! self = Some P →
  _population P = Members [] →
  set_extremes self score w = (Raise IndexError, w).
Proof.
  intros EP Emem. unfold set_extremes, individuals_of. msimpl.
  by rewrite (load_population_some _ _ _ EP), Emem.
Qed.
End Extremes.

(** ** Attributes of an individual *)

Section Attributes.
Context {collaborators : Collaborators} {generator : Generator}.

Lemma settable_cases score :
  settable score = true →
  (∃ get set, resolve score = Field get set
              ∧ ∀ v i, get (set v i) = v)
  ∨ resolve score = Dynamic.
Proof.
  unfold settable, resolve.
  repeat (match goal with
          | |- context [if ?b then _ else _] => destruct b
          end; try done); eauto 10.
Qed.

Lemma read_written i score v :
  settable score = true → read_attribute (written i score v) score = Ok v.
Proof.
  intros Hs. unfold read_attribute, written.
  destruct (settable_cases score Hs) as [(get & set & -> & Hgs) | ->].
  - by rewrite Hgs.
  - cbn. by rewrite lookup_insert_eq.
Qed.

Lemma setattr_settable r i score v w :
  individuals w !! r = Some i → settable score = true →
  setattr r score v w
  = (Ok tt,
     mkWorld (<[r := written i score v]> (individuals w))
             (populations w) (rng w)).
Proof.
  intros E Hs. unfold setattr, written, settable in *. msimpl.
  rewrite (load_some _ _ _ E). by destruct (resolve score).
Qed.

Lemma setattr_read_only r i score get v w :
  individuals w !! r = Some i → resolve score = ReadOnlyProperty get →
  setattr r score v w = (Raise AttributeError, w).
Proof.
  intros E Hr. unfold setattr. msimpl.
  by rewrite (load_some _ _ _ E), Hr.
Qed.

(** [setattr] followed by [getattr] under a name [setattr] accepts (an
    instance field or an attached score; Python's special attributes are
    left aside) reads back the value written, and no other object of the
    store changes. *)
Theorem setattr_then_getattr r i score v w :
  individuals w !! r = Some i →
  settable score = true →
  plain_name score = true →
  ∃ w',
    setattr r score v w = (Ok tt, w')
    ∧ getattr r score w' = (Ok v, w')
    ∧ (∀ r', r' ≠ r → individuals w' !! r' = individuals w !! r')
    ∧ populations w' = populations w.
Proof.
  intros E Hs _. eexists. split; [by apply setattr_settable |].
  split; [| split; [| done]].
  - eapply getattr_some; [| by apply read_written].
    cbn. apply list_lookup_insert_eq. by eapply lookup_lt_Some.
  - intros r' Hne. cbn. by rewrite list_lookup_insert_ne.
Qed.

(** [fitness] and [rank] are properties without a setter: [setattr]
    under these names raises [AttributeError] and changes nothing,
    although [getattr] reads them. *)
Theorem setattr_on_a_property r i score v w :
  individuals w !! r = Some i →
  score = "fitness" ∨ score = "rank" →
  setattr r score v w = (Raise AttributeError, w)
  ∧ is_ok (getattr r score w).1 = true.
Proof.
  intros E [-> | ->].
  - split; [by eapply setattr_read_only |].
    by rewrite (getattr_some _ _ _ (_fitness i) _ E).
  - split; [by eapply setattr_read_only |].
    by rewrite (getattr_some _ _ _ (_rank i) _ E).
Qed.
End Attributes.

(** ** Normalization with cached extremes *)

Section Rescaling.
Context {collaborators : Collaborators} {generator : Generator}.

Lemma copy_of_extends w w' r c :
  extends w w' → copy_of w r c → copy_of w' r c.
Proof.
  intros Hext (i & Er & Ec). exists i.
  split; by eapply extends_lookup.
Qed.

Lemma normalized_copy_extends w w' score low high r m :
  extends w w' → normalized_copy w score low high r m →
  normalized_copy w' score low high r m.
Proof.
  intros Hext (i & v & Er & Ev & Em). exists i, v.
  split; [by eapply extends_lookup |].
  split; [done | by eapply extends_lookup].
Qed.

Lemma extends_length w w' :
  extends w w' → (length (individuals w) ≤ length (individuals w'))%nat.
Proof. intros [Hpre _]. by apply prefix_length. Qed.

(** The deep copy of a list of members: every copy is a new object that
    equals its original. *)
Lemma deepcopy_list_copies (l : list ref) memo w :
  (∀ r, r ∈ l → is_Some (individuals w !! r)) →
  (∀ r c, memo !! r = Some c → copy_of w r c) →
  ∃ l' w',
    deepcopy_list memo l w = (Ok l', w')
    ∧ extends w w'
    ∧ Forall2 (copy_of w') l l'.
Proof.
  revert memo w. induction l as [| r l IH]; intros memo w Hwf Hmemo.
  - exists [], w. split; [done |]. split; [apply extends_refl | constructor].
  - cbn [deepcopy_list]. destruct (memo !! r) as [c |] eqn:Ememo.
    + destruct (IH memo w) as (l' & w' & E & Hext & Hall);
        [intros; apply Hwf; set_solver | done |].
      msimpl. rewrite E. exists (c :: l'), w'.
      split; [done |]. split; [done |]. constructor; [| done].
      eapply copy_of_extends; [done |]. by apply Hmemo.
    + destruct (Hwf r) as [i Ei]; [set_solver |].
      destruct (deepcopy_extends _ _ _ Ei) as (w1 & E1 & Hext1 & Ec).
      msimpl. rewrite E1.
      match goal with
      | |- context [deepcopy_list ?m l w1] =>
          destruct (IH m w1) as (l' & w' & E & Hext & Hall)
      end.
      { intros r0 Hr0. destruct (Hwf r0) as [i0 Ei0]; [set_solver |].
        exists i0. by eapply extends_lookup. }
      { intros r0 c0 H0.
        destruct (decide (r = r0)) as [<- | Hne].
        - rewrite lookup_insert_eq in H0. injection H0 as <-.
          exists i. split; [by eapply extends_lookup | done].
        - rewrite lookup_insert_ne in H0 by done.
          eapply copy_of_extends; [done |]. by apply Hmemo. }
      rewrite E. exists (length (individuals w) :: l'), w'.
      split; [done |]. split; [by eapply extends_trans |].
      constructor; [| done].
      exists i. split; eapply extends_lookup; try done.
      by eapply extends_lookup.
Qed.

(** [minmax_individual] over the copies: one new object per copy, with
    the score rescaled. *)
Lemma map_each_minmax score low high (copies : list ref) w :
  settable score = true →
  Qeq_bool (high - low) 0 = false →
  (∀ c, c ∈ copies →
     ∃ i v, individuals w !! c = Some i ∧ read_attribute i score = Ok v) →
  ∃ news w',
    map_each (minmax_individual score low high) copies w = (Ok news, w')
    ∧ extends w w'
    ∧ Forall2 (λ c m, (length (individuals w) ≤ m)%nat
                      ∧ normalized_copy w' score low high c m) copies news.
Proof.
  intros Hset Hspread. revert w.
  induction copies as [| c copies IH]; intros w Hread.
  - exists [], w. split; [done |]. split; [apply extends_refl | constructor].
  - destruct (Hread c) as (i & v & Ei & Ev); [set_solver |].
    rewrite map_each_cons. unfold minmax_individual at 1. msimpl.
    rewrite (deepcopy_some _ _ _ Ei). set (w1 := mkWorld _ _ _).
    assert (Hext1 : extends w w1)
      by (split; [by apply prefix_app_r | done]).
    rewrite (getattr_some _ _ _ _ _ (extends_lookup _ _ _ _ Hext1 Ei) Ev).
    unfold true_divide. rewrite Hspread. msimpl.
    rewrite (setattr_settable _ i _ _ w1) by (done || apply lookup_fresh).
    set (q := ((v - low) / (high - low))%Q).
    set (w2 := mkWorld _ _ _).
    assert (E2 : individuals w2
                 = (individuals w ++ [written i score q])%list).
    { cbn. apply list_eq. intros k.
      destruct (decide (k = length (individuals w))) as [-> | Hk].
      - rewrite list_lookup_insert_eq by (rewrite length_app; cbn; lia).
        by rewrite lookup_fresh.
      - rewrite list_lookup_insert_ne by done.
        destruct (decide (k < length (individuals w))).
        + by rewrite !lookup_app_l.
        + rewrite !lookup_ge_None_2; [done | |];
            rewrite length_app; cbn; lia. }
    assert (Hext2 : extends w w2).
    { split; [rewrite E2; by apply prefix_app_r | done]. }
    destruct (IH w2) as (news & w' & E & Hext & Hall).
    { intros c' Hc'. destruct (Hread c') as (i' & v' & Ei' & Ev');
        [set_solver |].
      exists i', v'. split; [by eapply extends_lookup | done]. }
    rewrite E. exists (length (individuals w) :: news), w'.
    split; [done |]. split; [by eapply extends_trans |].
    constructor.
    + split; [done |]. eapply normalized_copy_extends; [done |].
      exists i, v. split; [by eapply extends_lookup |]. split; [done |].
      rewrite E2. apply lookup_fresh.
    + eapply Forall2_impl; [exact Hall |]. intros c' m [Hm Hn].
      split; [| done]. pose proof (extends_length _ _ Hext2). lia.
Qed.

Lemma forallb_isinstance (l : list ref) :
  forallb isinstance_Individual l = true.
Proof. by induction l. Qed.

Lemma update_population_some self (news : list ref) w P :
  populations w !! self = Some P →
  update_population self news w
  = (Ok tt,
     mkWorld (individuals w)
             (<[self := with_population (Members news) P]> (populations w))
             (rng w)).
Proof.
  intros EP. unfold update_population. rewrite forallb_isinstance. msimpl.
  by rewrite (load_population_some _ _ _ EP).
Qed.

Lemma normalize_scores_cached depth self score inplace w P members low high :
  populations w !! self = Some P →
  _population P = Members members →
  readable w score members →
  settable score = true →
  extremes P !! ("min_" +:+ score) = Some low →
  extremes P !! ("max_" +:+ score) = Some high →
  ¬ (low == high)%Q →
  ∃ news w2,
    extends w w2
    ∧ length news = length members
    ∧ (∀ k r m, members !! k = Some r → news !! k = Some m →
         (length (individuals w) ≤ m)%nat
         ∧ normalized_copy w2 score low high r m)
    ∧ normalize_scores (S depth) self score inplace w
      = (if inplace
         then bind (update_population self news) (λ _, ret None)
         else ret (Some news)) w2.
Proof.
  intros EP Emem Hread Hset Elow Ehigh Hne.
  assert (Hspread : Qeq_bool (high - low) 0 = false).
  { destruct (Qeq_bool (high - low) 0) eqn:E; [| done].
    apply Qeq_bool_iff in E. exfalso. apply Hne.
    rewrite <- (Qplus_0_r low), <- E. ring. }
  destruct (deepcopy_list_copies members ∅ w) as (copies & w1 & E1 & Hext1 & Hc).
  { intros r Hr. destruct (Hread r Hr) as (i & _ & Ei & _). by exists i. }
  { intros r c H. by rewrite lookup_empty in H. }
  assert (Hcopies : ∀ c, c ∈ copies →
            ∃ i v, individuals w1 !! c = Some i
                   ∧ read_attribute i score = Ok v).
  { intros c Hin. apply list_elem_of_lookup_1 in Hin as [k Hk].
    destruct (Forall2_lookup_r _ _ _ _ _ Hc Hk) as (r & Hr & i & Er & Ec).
    destruct (Hread r) as (i0 & v & Ei0 & Ev);
      [by eapply list_elem_of_lookup_2 |].
    pose proof (extends_lookup _ _ _ _ Hext1 Ei0) as Er'.
    pose proof (eq_trans (eq_sym Er) Er') as [= ->].
    by exists i0, v. }
  destruct (map_each_minmax score low high copies w1 Hset Hspread Hcopies)
    as (news & w2 & E2 & Hext2 & Hn).
  exists news, w2. split; [by eapply extends_trans |].
  split.
  { exact (eq_trans (eq_sym (Forall2_length _ _ _ Hn))
                    (eq_sym (Forall2_length _ _ _ Hc))). }
  split.
  { intros k r m Hr Hm.
    destruct (Forall2_lookup_l _ _ _ _ _ Hc Hr) as (c & Hck & Hcopy).
    destruct (Forall2_lookup_lr _ _ _ _ _ _ Hn Hck Hm)
      as (Hfresh & i & v & Ec & Ev & Em).
    split; [pose proof (extends_length _ _ Hext1); lia |].
    destruct (copy_of_extends _ _ _ _ Hext2 Hcopy) as (i' & Er' & Ec').
    pose proof (eq_trans (eq_sym Ec') Ec) as [= ->].
    by exists i, v. }
  cbn [normalize_scores]. unfold try_except_AttributeError.
  unfold getattr_population, individuals_of. msimpl.
  rewrite (load_population_some _ _ _ EP), Elow.
  rewrite (load_population_some _ _ _ EP), Ehigh.
  rewrite (load_population_some _ _ _ EP), Emem.
  cbn [deepcopy_members]. msimpl. rewrite E1. msimpl.
  cbn [iterate]. msimpl. rewrite E2.
  destruct inplace; msimpl; [| done].
  assert (EP2 : populations w2 !! self = Some P).
  { destruct Hext1 as (_ & Hp1 & _). destruct Hext2 as (_ & Hp2 & _).
    by rewrite Hp2, Hp1. }
  by rewrite (update_population_some _ _ _ _ EP2).
Qed.

(** For a score that can be assigned (an instance field or an attached
    attribute, not one of the properties [fitness] and [rank]), with
    cached extremes that differ and values whose rescaling is exact in
    floating point, [normalize_scores(score, inplace=False)] returns one
    new candidate per member, in order, each the member with its score
    replaced by [(value - min) / (max - min)].  Every object that
    existed stays as it was: the live population, its members and the
    cached extremes. *)
Theorem normalize_scores_returns_rescaled_copies depth self score w P
    members low high :
  populations w !! self = Some P →
  _population P = Members members →
  readable w score members →
  settable score = true →
  plain_name score = true →
  extremes P !! ("min_" +:+ score) = Some low →
  extremes P !! ("max_" +:+ score) = Some high →
  ¬ (low == high)%Q →
  (∀ r, r ∈ members → exact_rescaling low high (score_of w score r) = true) →
  ∃ news w',
    normalize_scores (S depth) self score false w = (Ok (Some news), w')
    ∧ extends w w'
    ∧ length news = length members
    ∧ (∀ k r m, members !! k = Some r → news !! k = Some m →
         (length (individuals w) ≤ m)%nat
         ∧ normalized_copy w' score low high r m).
Proof.
  intros EP Emem Hread Hset _ Elow Ehigh Hne _.
  destruct (normalize_scores_cached depth self score false w P members
              low high EP Emem Hread Hset Elow Ehigh Hne)
    as (news & w2 & Hext & Hlen & Hn & E).
  by exists news, w2.
Qed.

(** For a score that can be assigned (an instance field or an attached
    attribute, not one of the properties [fitness] and [rank]), with
    cached extremes that differ and values whose rescaling is exact in
    floating point, [normalize_scores(score)] in place returns [None]
    and makes the population hold the new, rescaled candidates instead
    of its members.  The former members stay in the store unchanged, and
    the cached extremes are kept as they were: they are not recomputed
    for the new members. *)
Theorem normalize_scores_in_place_replaces_members depth self score w P
    members low high :
  populations w !! self = Some P →
  _population P = Members members →
  readable w score members →
  settable score = true →
  plain_name score = true →
  extremes P !! ("min_" +:+ score) = Some low →
  extremes P !! ("max_" +:+ score) = Some high →
  ¬ (low == high)%Q →
  (∀ r, r ∈ members → exact_rescaling low high (score_of w score r) = true) →
  ∃ news w',
    normalize_scores (S depth) self score true w = (Ok None, w')
    ∧ members_of w' self = Some (Members news)
    ∧ individuals w `prefix_of` individuals w'
    ∧ (∀ name, extreme_of w' self name = extreme_of w self name)
    ∧ length news = length members
    ∧ (∀ k r m, members !! k = Some r → news !! k = Some m →
         (length (individuals w) ≤ m)%nat
         ∧ normalized_copy w' score low high r m).
Proof.
  intros EP Emem Hread Hset _ Elow Ehigh Hne _.
  destruct (normalize_scores_cached depth self score true w P members
              low high EP Emem Hread Hset Elow Ehigh Hne)
    as (news & w2 & (Hpre & Hpops & Hrng) & Hlen & Hn & E).
  assert (EP2 : populations w2 !! self = Some P) by (by rewrite Hpops).
  pose proof (lookup_lt_Some _ _ _ EP2) as Hself.
  eexists news, _. split.
  { rewrite E. msimpl. by rewrite (update_population_some _ _ _ _ EP2). }
  unfold members_of. cbn [populations individuals].
  rewrite list_lookup_insert_eq by done.
  split; [done |]. split; [done |]. split.
  { intros name. rewrite (extreme_of_some w self P EP).
    unfold extreme_of. cbn [populations].
    by rewrite list_lookup_insert_eq. }
  split; [done |].
  intros k r m Hr Hm. destruct (Hn k r m Hr Hm) as [Hfresh Hcopy].
  split; [done |]. exact Hcopy.
Qed.
End Rescaling.

(** ** Normalization of a property *)

Section Property.
Context {collaborators : Collaborators} {generator : Generator}.

Lemma readable_extends w w' score (members : list ref) :
  extends w w' → readable w score members → readable w' score members.
Proof.
  intros Hext Hread r Hr. destruct (Hread r Hr) as (i & q & Ei & Eq).
  exists i, q. split; [by eapply extends_lookup | done].
Qed.

Lemma score_of_extends w w' score r :
  extends w w' → is_Some (individuals w !! r) →
  score_of w' score r = score_of w score r.
Proof.
  intros Hext [i Ei]. unfold score_of.
  pose proof (extends_lookup _ _ _ _ Hext Ei) as Ei'.
  unfold ref in *. by rewrite Ei', Ei.
Qed.

(** With cached extremes that differ, the body of the [try] fails on its
    first member at [setattr], and the call is the [except] clause, run
    on a store that has two more objects. *)
Lemma normalize_scores_property_body depth self score get inplace w P
    members low high :
  populations w !! self = Some P →
  _population P = Members members →
  members ≠ [] →
  readable w score members →
  resolve score = ReadOnlyProperty get →
  extremes P !! ("min_" +:+ score) = Some low →
  extremes P !! ("max_" +:+ score) = Some high →
  ¬ (low == high)%Q →
  ∃ w',
    extends w w'
    ∧ normalize_scores (S depth) self score inplace w
      = bind (set_extremes self score)
          (λ _, bind (normalize_scores depth self score true)
                  (λ _, ret None)) w'.
Proof.
  intros EP Emem Hne Hread Hres Elow Ehigh Hflat.
  assert (Hspread : Qeq_bool (high - low) 0 = false).
  { destruct (Qeq_bool (high - low) 0) eqn:E; [| done].
    apply Qeq_bool_iff in E. exfalso. apply Hflat.
    rewrite <- (Qplus_0_r low), <- E. ring. }
  destruct (deepcopy_list_copies members ∅ w)
    as (copies & w1 & E1 & Hext1 & Hc).
  { intros r Hr. destruct (Hread r Hr) as (i & _ & Ei & _). by exists i. }
  { intros r c H. by rewrite lookup_empty in H. }
  destruct members as [| m rest]; [done |].
  inversion Hc as [| m' c rest' cs (i & Em & Ec) Hrest]; subst.
  destruct (Hread m) as (i0 & v & Ei0 & Ev); [apply list_elem_of_here |].
  pose proof (eq_trans (eq_sym Em) (extends_lookup _ _ _ _ Hext1 Ei0))
    as [= ->].
  destruct (deepcopy_extends _ _ _ Ec) as (w2 & E2 & Hext2 & Enew).
  exists w2. split; [by eapply extends_trans |].
  cbn [normalize_scores]. unfold try_except_AttributeError.
  unfold getattr_population, individuals_of. msimpl.
  rewrite (load_population_some _ _ _ EP), Elow.
  rewrite (load_population_some _ _ _ EP), Ehigh.
  rewrite (load_population_some _ _ _ EP), Emem.
  cbn [deepcopy_members]. msimpl. rewrite E1. msimpl.
  cbn [iterate]. msimpl. rewrite map_each_cons.
  unfold minmax_individual at 1. msimpl. rewrite E2.
  rewrite (getattr_some _ _ _ _ _ (extends_lookup _ _ _ _ Hext2 Ec) Ev).
  unfold true_divide. rewrite Hspread. msimpl.
  by rewrite (setattr_read_only _ _ _ _ _ _ Enew Hres).
Qed.

Lemma normalize_scores_property_recursion depth self score get
    (members : list ref) r1 r2 :
  resolve score = ReadOnlyProperty get →
  r1 ∈ members → r2 ∈ members →
  ∀ inplace w P,
    populations w !! self = Some P →
    _population P = Members members →
    readable w score members →
    ¬ (score_of w score r1 == score_of w score r2)%Q →
    extremes P !! ("min_" +:+ score) = None
    ∨ (∃ low high,
         extremes P !! ("min_" +:+ score) = Some low
         ∧ extremes P !! ("max_" +:+ score) = Some high
         ∧ ¬ (low == high)%Q) →
    (normalize_scores depth self score inplace w).1 = Raise RecursionError.
Proof.
  intros Hres H1 H2.
  assert (Hne : members ≠ []) by (intros ->; by apply elem_of_nil in H1).
  induction depth as [| depth IH]; intros inplace w P EP Emem Hread Hdiff Hcache;
    [done |].
  assert (Hvalid : ∀ r, r ∈ members → is_Some (individuals w !! r)).
  { intros r Hr. destruct (Hread r Hr) as (i & _ & Ei & _). by exists i. }
  assert (Hhandler : ∃ w',
            extends w w'
            ∧ normalize_scores (S depth) self score inplace w
              = bind (set_extremes self score)
                  (λ _, bind (normalize_scores depth self score true)
                          (λ _, ret None)) w').
  { destruct Hcache as [Enone | (low & high & Elow & Ehigh & Hflat)].
    - exists w. split; [apply extends_refl |].
      by eapply normalize_scores_first_use.
    - by eapply normalize_scores_property_body. }
  destruct Hhandler as (w' & Hext & ->).
  assert (EP' : populations w' !! self = Some P).
  { destruct Hext as (_ & -> & _). done. }
  pose proof (readable_extends _ _ _ _ Hext Hread) as Hread'.
  destruct (set_extremes_result _ _ _ _ _ EP' Emem Hne Hread')
    as (lowest & highest & Elowest & Ehighest & E).
  rewrite (bind_ok _ _ _ _ _ E). set (w3 := mkWorld _ _ _).
  pose proof (lookup_lt_Some _ _ _ EP') as Hself.
  set (P3 := with_extreme ("min_" +:+ score) (score_of w' score lowest)
                (with_extreme ("max_" +:+ score)
                   (score_of w' score highest) P)) in *.
  assert (Hrec : (normalize_scores depth self score true w3).1
                 = Raise RecursionError).
  { apply (IH true w3 P3).
    - cbn. by apply list_lookup_insert_eq.
    - done.
    - exact Hread'.
    - change (score_of w3 score r1) with (score_of w' score r1).
      change (score_of w3 score r2) with (score_of w' score r2).
      rewrite !(score_of_extends _ _ _ _ Hext) by (by apply Hvalid). done.
    - right. exists (score_of w' score lowest), (score_of w' score highest).
      split; [apply lookup_insert_eq |]. split.
      { cbn. rewrite lookup_insert_ne by apply min_max_names.
        apply lookup_insert_eq. }
      intros Heq. apply Hdiff.
      destruct (by_score_bounds _ _ _ _ _ Elowest Ehighest r1 H1) as [L1 U1].
      destruct (by_score_bounds _ _ _ _ _ Elowest Ehighest r2 H2) as [L2 U2].
      rewrite <- !(score_of_extends _ _ _ _ Hext) by (by apply Hvalid).
      rewrite <- Heq in U1, U2.
      rewrite (Qle_antisym _ _ U1 L1), (Qle_antisym _ _ U2 L2). reflexivity. }
  unfold bind.
  destruct (normalize_scores depth self score true w3) as [res w4].
  cbn [fst] in Hrec. by rewrite Hrec.
Qed.

(** [normalize_scores("fitness")] and [normalize_scores("rank")] never
    complete on a population with two different values: the rescaled
    value cannot be assigned to a property without a setter, [setattr]
    raises [AttributeError] inside the [try], and the [except] clause
    starts over.  Whatever the depth the interpreter allows, the call
    ends in [RecursionError]. *)
Theorem normalize_scores_on_a_property_recurses depth self score inplace w
    P (members : list ref) r1 r2 :
  populations w !! self = Some P →
  _population P = Members members →
  (∀ r, r ∈ members → is_Some (individuals w !! r)) →
  score = "fitness" ∨ score = "rank" →
  r1 ∈ members → r2 ∈ members →
  ¬ (score_of w score r1 == score_of w score r2)%Q →
  extremes P !! ("min_" +:+ score) = None →
  (normalize_scores depth self score inplace w).1 = Raise RecursionError.
Proof.
  intros EP Emem Hvalid Hscore H1 H2 Hdiff Enone.
  assert (Hres : ∃ get, resolve score = ReadOnlyProperty get
                        ∧ ∀ i, read_attribute i score = Ok (get i)).
  { destruct Hscore as [-> | ->]; eexists; split; reflexivity. }
  destruct Hres as (get & Hres & Hget).
  eapply (normalize_scores_property_recursion depth self score get members
            r1 r2 Hres H1 H2 inplace w P EP Emem); [| done | by left].
  intros r Hr. destruct (Hvalid r Hr) as [i Ei]. by exists i, (get i).
Qed.
End Property.

(** ** Normalization: scores that cannot be read *)

Section Unreadable.
Context {collaborators : Collaborators} {generator : Generator}.

(** On the empty population the first [normalize_scores] raises the
    [IndexError] of [set_extremes], and stores nothing. *)
Theorem normalize_scores_empty_population depth self score inplace w P :
  populations w !! self = Some P →
  _population P = Members [] →
  extremes P !! ("min_" +:+ score) = None →
  normalize_scores (S depth) self score inplace w = (Raise IndexError, w).
Proof.
  intros EP Emem Enone.
  rewrite (normalize_scores_first_use _ _ _ _ _ _ EP Enone).
  by rewrite (bind_raise _ _ _ _ _
                (set_extremes_empty_population _ _ _ _ EP Emem)).
Qed.

Lemma getattr_each_missing score (members : list ref) w r i :
  resolve score = Dynamic →
  (∀ r', r' ∈ members → is_Some (individuals w !! r')) →
  r ∈ members → individuals w !! r = Some i → attached i !! score = None →
  map_each (λ r', getattr r' score) members w = (Raise AttributeError, w).
Proof.
  intros Hres Hvalid Hr Ei Enone.
  induction members as [| m members IH]; [by apply elem_of_nil in Hr |].
  rewrite map_each_cons. msimpl.
  destruct (Hvalid m) as [im Em]; [apply list_elem_of_here |].
  unfold getattr at 1. msimpl. rewrite (load_some _ _ _ Em).
  unfold read_attribute. rewrite Hres.
  destruct (attached im !! score) as [v |] eqn:Ev; [| done].
  rewrite IH; [done | |].
  - intros r' Hr'. apply Hvalid. by apply list_elem_of_further.
  - apply elem_of_cons in Hr as [-> | Hr]; [| done].
    pose proof (eq_trans (eq_sym Ei) Em) as [= ->]. congruence.
Qed.

(** A score is an attached attribute unless it is one of the names the
    class defines.  When a member lacks it, the first [normalize_scores]
    raises [AttributeError]: the error comes from [set_extremes], inside
    the [except] clause, and is not handled.  Nothing is stored. *)
Theorem normalize_scores_missing_score depth self score inplace w P
    (members : list ref) r i :
  populations w !! self = Some P →
  _population P = Members members →
  (∀ r', r' ∈ members → is_Some (individuals w !! r')) →
  resolve score = Dynamic →
  plain_name score = true →
  r ∈ members → individuals w !! r = Some i → attached i !! score = None →
  extremes P !! ("min_" +:+ score) = None →
  normalize_scores (S depth) self score inplace w
  = (Raise AttributeError, w).
Proof.
  intros EP Emem Hvalid Hres _ Hr Ei Elack Enone.
  rewrite (normalize_scores_first_use _ _ _ _ _ _ EP Enone).
  assert (E : set_extremes self score w = (Raise AttributeError, w)).
  { unfold set_extremes, individuals_of. msimpl.
    rewrite (load_population_some _ _ _ EP), Emem. cbn [iterate]. msimpl.
    unfold sorted. msimpl.
    by rewrite (getattr_each_missing _ _ _ _ _ Hres Hvalid Hr Ei Elack). }
  by rewrite (bind_raise _ _ _ _ _ E).
Qed.
End Unreadable.

(** ** Generated populations *)

Section Generation.
Context {collaborators : Collaborators} {generator : Generator}.

Lemma generate_population_some space individual w architectures cells :
  generate_random_samples space 20 = Ok (architectures, cells) →
  generate_population space individual w
  = (Ok (seq (length (individuals w))
             (length architectures `min` length cells)),
     mkWorld (individuals w
              ++ ((λ '(net, genotype), individual net genotype)
                    <$> zip architectures (architecture_to_genotype <$> cells)))
             (populations w) (rng w)).
Proof.
  intros Hs. unfold generate_population. msimpl. rewrite Hs.
  rewrite new_each. by rewrite length_zip, length_fmap.
Qed.

(** [generate_population] with the class [Individual] as factory asks
    the oracle for 20 samples and builds one new candidate per pair of
    net and cell it gets, as many as the shorter of the two sequences.
    Candidate [k] holds net [k] and the genotype of cell [k], with age,
    fitness and rank 0 and no scores.  Its interface is a
    [NATSInterface] made for it from [NATSPATH] and ["cifar10"], not the
    interface the samples came from.  The objects that existed are
    untouched. *)
Theorem generate_population_builds_candidates space w architectures cells :
  generate_random_samples space 20 = Ok (architectures, cells) →
  ∃ members w',
    generate_population space
      (λ n g, Individual_init n g 0 "cifar10" None) w = (Ok members, w')
    ∧ members = seq (length (individuals w))
                    (length architectures `min` length cells)
    ∧ extends w w'
    ∧ (∀ k r, members !! k = Some r →
         ∃ n c,
           architectures !! k = Some n ∧ cells !! k = Some c
           ∧ individuals w' !! r
             = Some (mkIndividual ∅ n (architecture_to_genotype c) 0 0 0
                                  (NATSInterface NATSPATH "cifar10") ∅)).
Proof.
  intros Hs. eexists _, _.
  split; [by apply generate_population_some |].
  split; [done |].
  split; [split; [by apply prefix_app_r | done] |].
  intros k r Hk. apply lookup_seq in Hk as [-> Hlt].
  destruct (lookup_lt_is_Some_2 architectures k) as [n En]; [lia |].
  destruct (lookup_lt_is_Some_2 cells k) as [c Ec]; [lia |].
  exists n, c. split; [done |]. split; [done |].
  cbn [individuals]. rewrite lookup_app_r by lia.
  replace (length (individuals w) + k - length (individuals w)) with k by lia.
  rewrite list_lookup_fmap.
  assert (Ez : zip architectures (architecture_to_genotype <$> cells) !! k
               = Some (n, architecture_to_genotype c)).
  { apply lookup_zip_with_Some. exists n, (architecture_to_genotype c).
    split; [done |]. split; [done |]. by rewrite list_lookup_fmap, Ec. }
  by rewrite Ez.
Qed.

(** A failure of the oracle propagates out of the constructor: no
    population and no candidate is created. *)
Theorem Population_init_oracle_failure space individual init_population w e :
  truthy init_population = true →
  generate_random_samples space 20 = Raise e →
  Population_init space individual init_population w = (Raise e, w).
Proof.
  intros Ht Hs. unfold Population_init, generate_population. rewrite Ht.
  msimpl. by rewrite Hs.
Qed.

(** A collection that is not empty is truthy: the constructor does not
    keep it.  The population it builds holds newly generated candidates
    only, none of the candidates supplied. *)
Theorem Population_init_discards_a_collection space individual
    (supplied : list ref) w architectures cells :
  supplied ≠ [] →
  (∀ r, r ∈ supplied → is_Some (individuals w !! r)) →
  generate_random_samples space 20 = Ok (architectures, cells) →
  ∃ members w',
    Population_init space individual (Members supplied) w
    = (Ok (length (populations w)), w')
    ∧ members_of w' (length (populations w)) = Some (Members members)
    ∧ length members = length architectures `min` length cells
    ∧ (∀ r, r ∈ members → r ∉ supplied).
Proof.
  intros Hne Hvalid Hs.
  assert (Htruthy : truthy (Members supplied) = true)
    by (by destruct supplied).
  exists (seq (length (individuals w))
              (length architectures `min` length cells)).
  eexists. split.
  { unfold Population_init. rewrite Htruthy.
    msimpl. rewrite (generate_population_some _ _ _ _ _ Hs).
    unfold new_population. cbn [populations individuals rng]. reflexivity. }
  unfold members_of. cbn [populations].
  rewrite lookup_app_r by lia. rewrite Nat.sub_diag. cbn.
  split; [done |]. split; [apply length_seq |].
  intros r Hr Hin. apply elem_of_seq in Hr.
  destruct (Hvalid r Hin) as [i Ei]. apply lookup_lt_Some in Ei. lia.
Qed.
End Generation.

(** ** What the operators leave alone *)

Section Frame.
Context {collaborators : Collaborators} {generator : Generator}.

Lemma grows_ret {A} (a : A) : grows (ret a).
Proof. by intros w. Qed.

Lemma grows_raise {A} e : grows (raise (A := A) e).
Proof. by intros w. Qed.

Lemma grows_lift {A} (r : result A) : grows (lift r).
Proof. by intros w. Qed.

Lemma grows_bind {A B} (m : Py A) (k : A → Py B) :
  grows m → (∀ a, grows (k a)) → grows (bind m k).
Proof.
  intros Hm Hk w. unfold bind. specialize (Hm w).
  destruct (m w) as [[a | e] w1]; [| done].
  destruct Hm as [Hpre Hpop]. destruct (Hk a w1) as [Hpre' Hpop'].
  cbn [snd] in *. split; [by etrans | congruence].
Qed.

Lemma grows_load r : grows (load r).
Proof. intros w. unfold load. by destruct (individuals w !! r). Qed.

Lemma grows_new i : grows (new i).
Proof. intros w. split; [by apply prefix_app_r | done]. Qed.

Lemma grows_deepcopy r : grows (deepcopy r).
Proof. apply grows_bind; [apply grows_load | intros; apply grows_new]. Qed.

Lemma grows_genotype r : grows (genotype r).
Proof. apply grows_bind; [apply grows_load | intros; apply grows_ret]. Qed.

Lemma grows_draw : grows draw.
Proof. intros w. unfold draw. by destruct (next (rng w)). Qed.

Lemma grows_randint low high : grows (np_random_randint low high).
Proof.
  unfold np_random_randint. destruct (high <=? low)%Z; [apply grows_raise |].
  apply grows_bind; [apply grows_draw | intros; apply grows_ret].
Qed.

Lemma grows_take_at {A} (l : list A) i : grows (take_at l i).
Proof.
  unfold take_at. destruct (l !! Z.to_nat i);
    [apply grows_ret | apply grows_raise].
Qed.

Lemma grows_call_update_genotype {A} r (arg : Py (list gene)) :
  grows arg → grows (call_update_genotype (A := A) r arg).
Proof.
  intros Harg. unfold call_update_genotype.
  apply grows_bind; [apply grows_genotype |]. intros _.
  apply grows_bind; [done |]. intros _. apply grows_raise.
Qed.

(** A computation that never returns: what follows it does not run. *)
Lemma grows_bind_raises {A B} (m : Py A) (k : A → Py B) :
  grows m → (∀ w, is_ok (m w).1 = false) → grows (bind m k).
Proof.
  intros Hm Hfail w. unfold bind. specialize (Hm w). specialize (Hfail w).
  by destruct (m w) as [[a | e] w1].
Qed.

Lemma grows_mutate_round self r : grows (mutate_round self r).
Proof.
  unfold mutate_round.
  apply grows_bind; [apply grows_genotype |]. intros mutant_genotype.
  apply grows_bind; [apply grows_genotype |]. intros held.
  apply grows_bind; [apply grows_randint |]. intros mutant_locus.
  apply grows_bind; [apply grows_take_at |]. intros mutant_gene.
  apply grows_bind_raises; [apply grows_raise | done].
Qed.

Lemma grows_mutate_rounds self r rounds last :
  grows (mutate_rounds self r rounds last).
Proof.
  revert last. induction rounds as [| rounds IH]; intros last;
    [apply grows_ret |].
  cbn [mutate_rounds]. apply grows_bind; [apply grows_mutate_round |].
  intros g. apply IH.
Qed.

(** [mutate] works on a copy: whatever its arguments and however it
    ends, every individual of the store is as it was before the call,
    the one it was given included, and so is every population. *)
Theorem mutate_spares_the_store self individual n_loci w :
  individuals w `prefix_of` individuals (mutate self individual n_loci w).2
  ∧ populations (mutate self individual n_loci w).2 = populations w.
Proof.
  revert w. change (grows (mutate self individual n_loci)). unfold mutate.
  apply grows_bind; [apply grows_deepcopy |]. intros mutant_individual.
  apply grows_bind; [apply grows_mutate_rounds |]. intros mutant_genotype.
  apply grows_call_update_genotype. unfold local.
  destruct mutant_genotype; [apply grows_ret | apply grows_raise].
Qed.

(** [recombine] works on a copy of the first parent: whatever its
    arguments and however it ends, every individual of the store is as
    it was before the call, both parents included, and so is every
    population. *)
Theorem recombine_spares_the_store self (parents : list ref) n_parts w :
  individuals w `prefix_of` individuals (recombine self parents n_parts w).2
  ∧ populations (recombine self parents n_parts w).2 = populations w.
Proof.
  revert w. change (grows (recombine self parents n_parts)).
  unfold recombine.
  destruct (negb (length parents =? 2)%nat); [apply grows_raise |].
  destruct parents as [| individual1 [| individual2 [| ? ?]]];
    try apply grows_raise.
  apply grows_bind; [apply grows_deepcopy |]. intros recombinant.
  apply grows_bind; [apply grows_genotype |]. intros g1.
  apply grows_bind; [apply grows_randint |]. intros recombination_locus.
  apply grows_bind.
  { apply grows_bind; [apply grows_draw | intros; apply grows_ret]. }
  intros realization.
  apply grows_bind.
  - destruct (Qltb realization (cross_probability self));
      (apply grows_bind; [apply grows_genotype |]); intros g;
      (apply grows_bind; [apply grows_raise |]); intros rest;
      apply grows_ret.
  - intros recombinant_genotype.
    apply grows_bind; [| intros; apply grows_ret].
    apply grows_call_update_genotype, grows_ret.
Qed.
End Frame.

(** ** Transforming the members *)

Section Transform.
Context {collaborators : Collaborators} {generator : Generator}.

(** The deep copy of a list of distinct members appends their
    individuals to the store, in order. *)
Lemma deepcopy_list_distinct (l : list ref) objs memo w :
  NoDup l →
  (∀ r, r ∈ l → memo !! r = None) →
  Forall2 (λ r i, individuals w !! r = Some i) l objs →
  deepcopy_list memo l w
  = (Ok (seq (length (individuals w)) (length l)),
     mkWorld (individuals w ++ objs) (populations w) (rng w)).
Proof.
  intros Hnd Hmemo Hobjs. revert objs memo w Hnd Hmemo Hobjs.
  induction l as [| r l IH]; intros objs memo w Hnd Hmemo Hobjs.
  - inversion Hobjs; subst. cbn. rewrite app_nil_r. by destruct w.
  - inversion Hobjs as [| r' i l' objs' Ei Hrest]; subst.
    apply NoDup_cons in Hnd as [Hr Hnd].
    cbn [deepcopy_list]. rewrite Hmemo by apply list_elem_of_here.
    msimpl. rewrite (deepcopy_some _ _ _ Ei).
    rewrite (IH objs').
    + cbn [individuals populations rng length seq].
      rewrite length_app, Nat.add_1_r. by rewrite <- app_assoc.
    + done.
    + intros r0 Hr0. rewrite lookup_insert_ne by (intros ->; done).
      apply Hmemo. by apply list_elem_of_further.
    + eapply Forall2_impl; [exact Hrest |]. intros r0 i0 E0. cbn.
      by apply lookup_app_l_Some.
Qed.

(** [in_place f] over the copies: each copy is rewritten by [f] until
    [f] fails; nothing in front of the copies changes. *)
Lemma in_place_each (f : Individual → result Individual) objs pre pops g :
  ∃ res objs',
    map_each (in_place f) (seq (length pre) (length objs))
      (mkWorld (pre ++ objs) pops g)
    = (res, mkWorld (pre ++ objs') pops g)
    ∧ (∀ news, Forall2 (λ i i', f i = Ok i') objs news →
         res = Ok (seq (length pre) (length objs)) ∧ objs' = news)
    ∧ (¬ Forall (λ i, is_ok (f i) = true) objs → is_ok res = false).
Proof.
  revert pre. induction objs as [| i objs IH]; intros pre.
  - exists (Ok []), []. split; [done |]. split.
    + intros news Hn. by inversion Hn.
    + intros H. by destruct H.
  - cbn [length seq]. rewrite map_each_cons. unfold in_place at 1. msimpl.
    unfold load. cbn [individuals]. rewrite list_lookup_middle by done.
    destruct (f i) as [i' | e] eqn:Ef.
    + unfold store. msimpl. cbn [individuals populations rng].
      rewrite insert_app_r_alt by done. rewrite Nat.sub_diag. cbn [insert list_insert].
      destruct (IH (pre ++ [i'])%list) as (res & objs' & E & Hok & Hfail).
      rewrite length_app, Nat.add_1_r, <- app_assoc in E. cbn [app] in E.
      rewrite E.
      destruct res as [news | e].
      * exists (Ok (length pre :: news)), (i' :: objs').
        rewrite <- app_assoc. split; [done |]. split.
        -- intros all Hall.
           inversion Hall as [| ? j ? rest Hj Hrest]; subst.
           destruct (Hok rest Hrest) as [[= ->] ->].
           rewrite length_app, Nat.add_1_r.
           split; [done |]. congruence.
        -- intros Hnot.
           assert (Hnot' : ¬ Forall (λ i, is_ok (f i) = true) objs).
           { intros H. apply Hnot. constructor; [by rewrite Ef | done]. }
           by specialize (Hfail Hnot').
      * exists (Raise e), (i' :: objs').
        rewrite <- app_assoc. split; [done |]. split; [| done].
        intros all Hall.
        inversion Hall as [| ? j ? rest Hj Hrest]; subst.
        by destruct (Hok rest Hrest).
    + exists (Raise e), (i :: objs). split; [done |]. split; [| done].
      intros all Hall. inversion Hall; subst. congruence.
Qed.

Lemma apply_on_individuals_run self f inplace w P (members : list ref) objs :
  populations w !! self = Some P →
  _population P = Members members →
  NoDup members →
  Forall2 (λ r i, individuals w !! r = Some i) members objs →
  apply_on_individuals self (in_place f) inplace w
  = bind (map_each (in_place f)
            (seq (length (individuals w)) (length objs)))
      (λ modified_individuals,
         if inplace
         then bind (update_population self modified_individuals)
                (λ _, ret None)
         else ret (Some modified_individuals))
      (mkWorld (individuals w ++ objs) (populations w) (rng w)).
Proof.
  intros EP Emem Hnd Hobjs. unfold apply_on_individuals. msimpl.
  rewrite (load_population_some _ _ _ EP), Emem. cbn [deepcopy_members].
  msimpl.
  rewrite (deepcopy_list_distinct members objs ∅ w Hnd) by done.
  cbn [iterate]. msimpl. rewrite (Forall2_length _ _ _ Hobjs).
  by destruct inplace.
Qed.

(** [apply_on_individuals] with a function that rewrites the object it
    is given, on distinct members on all of which the function
    succeeds: the store gains one new candidate per member, the
    function's result on that member, and the members themselves are
    untouched.  With [inplace=False] these candidates are returned and
    the population is left as it was; with [inplace=True] the population
    holds them instead of its members and the call returns [None]. *)
Theorem apply_on_individuals_transforms_copies self f inplace w P
    (members : list ref) objs news :
  populations w !! self = Some P →
  _population P = Members members →
  NoDup members →
  Forall2 (λ r i, individuals w !! r = Some i) members objs →
  Forall2 (λ i i', f i = Ok i') objs news →
  let fresh := seq (length (individuals w)) (length members) in
  apply_on_individuals self (in_place f) inplace w
  = (Ok (if inplace then None else Some fresh),
     mkWorld (individuals w ++ news)
       (if inplace
        then <[self := with_population (Members fresh) P]> (populations w)
        else populations w)
       (rng w)).
Proof.
  intros EP Emem Hnd Hobjs Hnews fresh.
  rewrite (apply_on_individuals_run _ _ _ _ _ _ _ EP Emem Hnd Hobjs).
  destruct (in_place_each f objs (individuals w) (populations w) (rng w))
    as (res & objs' & E & Hok & _).
  destruct (Hok news Hnews) as [-> ->].
  rewrite (bind_ok _ _ _ _ _ E). unfold fresh.
  rewrite (Forall2_length _ _ _ Hobjs).
  destruct inplace; [| done].
  msimpl. by rewrite (update_population_some _ _ _ P) by done.
Qed.

(** [apply_on_individuals] is all or nothing: when the function fails on
    a member, the call raises, with [inplace=True] as well; the
    population holds the members it held, and every individual that
    existed is as it was. *)
Theorem apply_on_individuals_failure self f inplace w P (members : list ref)
    objs :
  populations w !! self = Some P →
  _population P = Members members →
  NoDup members →
  Forall2 (λ r i, individuals w !! r = Some i) members objs →
  ¬ Forall (λ i, is_ok (f i) = true) objs →
  let outcome := apply_on_individuals self (in_place f) inplace w in
  is_ok outcome.1 = false
  ∧ populations outcome.2 = populations w
  ∧ individuals w `prefix_of` individuals outcome.2.
Proof.
  intros EP Emem Hnd Hobjs Hnot outcome. unfold outcome.
  rewrite (apply_on_individuals_run _ _ _ _ _ _ _ EP Emem Hnd Hobjs).
  destruct (in_place_each f objs (individuals w) (populations w) (rng w))
    as (res & objs' & E & _ & Hfail).
  specialize (Hfail Hnot). destruct res as [? | e]; [done |].
  rewrite (bind_raise _ _ _ _ _ E). cbn.
  split; [done |]. split; [done |]. by apply prefix_app_r.
Qed.
End Transform.

(** ** Ranking and the fittest *)

Section Agreement.
Context {collaborators : Collaborators} {generator : Generator}.

(** [update_ranking] and [fittest_n] use the same order: on distinct
    members, the candidate at position [k] of [fittest_n(N)] is the one
    [update_ranking] gives rank [k], and ranking changes nothing in what
    [fittest_n] returns afterwards. *)
Theorem update_ranking_agrees_with_fittest_n self n w P (members : list ref) :
  populations w !! self = Some P →
  _population P = Members members →
  NoDup members →
  (∀ r, r ∈ members → is_Some (individuals w !! r)) →
  ∃ top w',
    fittest_n self (Z.of_nat (length members)) w = (Ok top, w)
    ∧ update_ranking self w = (Ok tt, w')
    ∧ (∀ k r, top !! k = Some r → rank_of w' r = inject_Z (Z.of_nat k))
    ∧ (fittest_n self n w').1 = (fittest_n self n w).1.
Proof.
  intros EP Emem Hnd Hvalid.
  pose proof (by_fitness_perm w members) as Hperm.
  assert (Hnd' : NoDup (by_fitness w members)) by (by rewrite Hperm).
  assert (Hvalid' : ∀ r, r ∈ by_fitness w members →
                         is_Some (individuals w !! r))
    by (intros r Hr; apply Hvalid; by rewrite <- Hperm).
  destruct (assign_ranks 0 _ w Hnd' Hvalid')
    as (w' & Eloop & Hpops & _ & Hin & Hout).
  exists (by_fitness w members), w'.
  split.
  { rewrite (fittest_n_slice _ _ _ _ _ EP Emem Hvalid). unfold slice_to.
    destruct (Z.ltb_spec (Z.of_nat (length members)) 0); [lia |].
    rewrite Nat2Z.id, <- (Permutation_length Hperm). by rewrite firstn_all. }
  split.
  { unfold update_ranking. msimpl. rewrite (load_population_some _ _ _ EP).
    rewrite Emem. cbn [iterate]. msimpl.
    by rewrite (sorted_by_fitness _ _ Hvalid). }
  split.
  { intros k r Hk. destruct (Hvalid' r) as [i Ei];
      [by eapply list_elem_of_lookup_2 |].
    eapply rank_of_written. by apply Hin. }
  assert (Hfit : ∀ r, r ∈ members → fitness_of w' r = fitness_of w r).
  { intros r Hr. rewrite <- Hperm in Hr.
    apply list_elem_of_lookup_1 in Hr as [k Hk].
    destruct (Hvalid' r) as [i Ei]; [by eapply list_elem_of_lookup_2 |].
    unfold fitness_of. pose proof (Hin k r i Hk Ei) as Ew'.
    unfold ref in *. by rewrite Ew', Ei. }
  assert (EP' : populations w' !! self = Some P) by (by rewrite Hpops).
  assert (Hvalid'' : ∀ r, r ∈ members → is_Some (individuals w' !! r)).
  { intros r Hr. rewrite <- Hperm in Hr.
    apply list_elem_of_lookup_1 in Hr as [k Hk].
    destruct (Hvalid' r) as [i Ei]; [by eapply list_elem_of_lookup_2 |].
    rewrite (Hin k r i Hk Ei). by eexists. }
  rewrite (fittest_n_slice _ _ _ _ _ EP' Emem Hvalid'').
  rewrite (fittest_n_slice _ _ _ _ _ EP Emem Hvalid). cbn [fst].
  do 2 f_equal. unfold by_fitness. do 2 f_equal.
  apply list_fmap_ext. intros k r Hk.
  rewrite Hfit; [done |]. by eapply list_elem_of_lookup_2.
Qed.
End Agreement.

(** ** The further properties on concrete inputs *)

(** Splits a membership in a literal list into its cases. *)
Ltac each_member Hr tac :=
  repeat (apply elem_of_cons in Hr as [-> | Hr]; [tac |]);
  by apply elem_of_nil in Hr.

Lemma fittest_n_returns_the_fittest_witness :
  ∃ top rest,
    fittest_n 0 2 Toy.ranked_world = (Ok top, Toy.ranked_world)
    ∧ length top = 2
    ∧ top ++ rest ≡ₚ [0; 1; 2].
Proof.
  destruct (fittest_n_returns_the_fittest 0 2 Toy.ranked_world
              (Toy.population_of [0; 1; 2]) [0; 1; 2])
    as (top & rest & E & Hlen & _ & _ & Hperm).
  - reflexivity.
  - reflexivity.
  - intros r Hr. each_member Hr ltac:(by eexists).
  - lia.
  - by exists top, rest.
Defined.

Example fittest_n_of_two :
  (fittest_n 0 2 Toy.ranked_world).1 = Ok [1; 2].
Proof. vm_compute. reflexivity. Qed.

Lemma fittest_n_negative_drops_the_least_fit_witness :
  ∃ top dropped,
    fittest_n 0 (-1) Toy.ranked_world = (Ok top, Toy.ranked_world)
    ∧ length top = 2
    ∧ top ++ dropped ≡ₚ [0; 1; 2].
Proof.
  destruct (fittest_n_negative_drops_the_least_fit 0 (-1) Toy.ranked_world
              (Toy.population_of [0; 1; 2]) [0; 1; 2])
    as (top & dropped & E & Hlen & Hperm & _).
  - reflexivity.
  - reflexivity.
  - intros r Hr. each_member Hr ltac:(by eexists).
  - lia.
  - by exists top, dropped.
Defined.

Lemma obtain_parents_selects_members_witness :
  ∃ parents w',
    obtain_parents Toy.operators [0; 1; 2] 2 Toy.ranked_world
    = (Ok parents, w')
    ∧ length parents = 2
    ∧ (∀ p, p ∈ parents → p ∈ [0; 1; 2])
    ∧ same_store Toy.ranked_world w'.
Proof.
  apply (obtain_parents_selects_members Toy.operators [0; 1; 2] 2
           Toy.ranked_world).
  - discriminate.
  - vm_compute. discriminate.
  - intros r Hr. each_member Hr ltac:(by eexists).
Defined.


Lemma obtain_parents_tournament_size_zero_witness :
  obtain_parents Toy.no_contest [0; 1; 2] 2 Toy.ranked_world
  = (Raise IndexError, Toy.ranked_world).
Proof.
  apply (obtain_parents_tournament_size_zero Toy.no_contest [0; 1; 2] 2
           Toy.ranked_world).
  - reflexivity.
  - lia.
Defined.

Lemma obtain_parents_empty_population_witness :
  raises_ValueError (obtain_parents Toy.operators [] 2 Toy.ranked_world).1.
Proof.
  apply (obtain_parents_empty_population Toy.operators 2 Toy.ranked_world).
  - vm_compute. discriminate.
  - lia.
Defined.

Lemma set_extremes_stores_min_and_max_witness :
  ∃ low high w',
    set_extremes 0 "age" Toy.spread_world = (Ok tt, w')
    ∧ extreme_of w' 0 "min_age" = Some low
    ∧ extreme_of w' 0 "max_age" = Some high
    ∧ (∀ r, r ∈ [0; 1; 2] →
         (low <= score_of Toy.spread_world "age" r
          ∧ score_of Toy.spread_world "age" r <= high)%Q).
Proof.
  destruct (set_extremes_stores_min_and_max 0 "age" Toy.spread_world
              (Toy.population_of [0; 1; 2]) [0; 1; 2])
    as (low & high & w' & E & Hmin & Hmax & Hbounds & _).
  - reflexivity.
  - reflexivity.
  - discriminate.
  - intros r Hr. each_member Hr ltac:(eexists _, _; split; reflexivity).
  - reflexivity.
  - by exists low, high, w'.
Defined.

Lemma setattr_then_getattr_witness :
  ∃ w',
    setattr 0 "novelty" (1 # 3) Toy.spread_world = (Ok tt, w')
    ∧ getattr 0 "novelty" w' = (Ok (1 # 3), w')
    ∧ (∀ r', r' ≠ 0 →
         individuals w' !! r' = individuals Toy.spread_world !! r')
    ∧ populations w' = populations Toy.spread_world.
Proof.
  apply (setattr_then_getattr 0 (Toy.candidate ["a"] 2 2) "novelty" (1 # 3)
           Toy.spread_world).
  - reflexivity.
  - reflexivity.
  - reflexivity.
Defined.

Lemma setattr_on_a_property_witness :
  setattr 0 "fitness" (1 # 3) Toy.spread_world
  = (Raise AttributeError, Toy.spread_world)
  ∧ is_ok (getattr 0 "fitness" Toy.spread_world).1 = true.
Proof.
  apply (setattr_on_a_property 0 (Toy.candidate ["a"] 2 2) "fitness" (1 # 3)
           Toy.spread_world).
  - reflexivity.
  - by left.
Defined.

Lemma normalize_scores_returns_rescaled_copies_witness :
  ∃ news w',
    normalize_scores 1 0 "age" false Toy.cached_world = (Ok (Some news), w')
    ∧ extends Toy.cached_world w'
    ∧ length news = 3
    ∧ (∀ k r m, [0; 1; 2] !! k = Some r → news !! k = Some m →
         (3 ≤ m)%nat ∧ normalized_copy w' "age" 2 6 r m).
Proof.
  apply (normalize_scores_returns_rescaled_copies 0 0 "age" Toy.cached_world
           (mkPopulation Toy.oracle Toy.factory (Members [0; 1; 2])
              (<["min_age" := 2%Q]> (<["max_age" := 6%Q]> ∅)))
           [0; 1; 2] 2 6).
  - reflexivity.
  - reflexivity.
  - intros r Hr. each_member Hr ltac:(eexists _, _; split; reflexivity).
  - reflexivity.
  - reflexivity.
  - reflexivity.
  - reflexivity.
  - intros H. vm_compute in H. discriminate H.
  - intros r Hr. each_member Hr ltac:(vm_compute; reflexivity).
Defined.

Lemma normalize_scores_in_place_replaces_members_witness :
  ∃ news w',
    normalize_scores 1 0 "age" true Toy.cached_world = (Ok None, w')
    ∧ members_of w' 0 = Some (Members news)
    ∧ individuals Toy.cached_world `prefix_of` individuals w'
    ∧ (∀ name, extreme_of w' 0 name = extreme_of Toy.cached_world 0 name)
    ∧ length news = 3.
Proof.
  destruct (normalize_scores_in_place_replaces_members 0 0 "age"
              Toy.cached_world
              (mkPopulation Toy.oracle Toy.factory (Members [0; 1; 2])
                 (<["min_age" := 2%Q]> (<["max_age" := 6%Q]> ∅)))
              [0; 1; 2] 2 6)
    as (news & w' & E & Hmem & Hpre & Hcache & Hlen & _).
  - reflexivity.
  - reflexivity.
  - intros r Hr. each_member Hr ltac:(eexists _, _; split; reflexivity).
  - reflexivity.
  - reflexivity.
  - reflexivity.
  - reflexivity.
  - intros H. vm_compute in H. discriminate H.
  - intros r Hr. each_member Hr ltac:(vm_compute; reflexivity).
  - by exists news, w'.
Defined.

Lemma normalize_scores_on_a_property_recurses_witness :
  (normalize_scores 1000 0 "fitness" true Toy.spread_world).1
  = Raise RecursionError.
Proof.
  apply (normalize_scores_on_a_property_recurses 1000 0 "fitness" true
           Toy.spread_world (Toy.population_of [0; 1; 2]) [0; 1; 2] 0 1).
  - reflexivity.
  - reflexivity.
  - intros r Hr. each_member Hr ltac:(by eexists).
  - by left.
  - apply list_elem_of_here.
  - apply list_elem_of_further, list_elem_of_here.
  - intros H. vm_compute in H. discriminate H.
  - reflexivity.
Defined.

Lemma normalize_scores_empty_population_witness :
  normalize_scores 1 0 "age" true Toy.deserted_world
  = (Raise IndexError, Toy.deserted_world).
Proof.
  apply (normalize_scores_empty_population 0 0 "age" true Toy.deserted_world
           (Toy.population_of [])).
  - reflexivity.
  - reflexivity.
  - reflexivity.
Defined.

Lemma normalize_scores_missing_score_witness :
  normalize_scores 1 0 "novelty" true Toy.spread_world
  = (Raise AttributeError, Toy.spread_world).
Proof.
  apply (normalize_scores_missing_score 0 0 "novelty" true Toy.spread_world
           (Toy.population_of [0; 1; 2]) [0; 1; 2] 0
           (Toy.candidate ["a"] 2 2)).
  - reflexivity.
  - reflexivity.
  - intros r Hr. each_member Hr ltac:(by eexists).
  - reflexivity.
  - reflexivity.
  - apply list_elem_of_here.
  - reflexivity.
  - reflexivity.
  - reflexivity.
Defined.

Lemma generate_population_builds_candidates_witness :
  ∃ members w',
    generate_population Toy.oracle
      (λ n g, Individual_init n g 0 "cifar10" None) Toy.pair_world
    = (Ok members, w')
    ∧ members = seq 2 20
    ∧ extends Toy.pair_world w'.
Proof.
  destruct (generate_population_builds_candidates Toy.oracle Toy.pair_world
              (replicate 20 "net") (replicate 20 "cell") eq_refl)
    as (members & w' & E & Hm & Hext & _).
  exists members, w'. split; [exact E |]. split; [exact Hm | exact Hext].
Defined.

Lemma Population_init_oracle_failure_witness :
  @Population_init Toy.offline Toy.generator tt
    (λ n g, Individual_init n g 0 "cifar10" None) (Flag true)
    Toy.offline_world
  = (Raise (ValueError "oracle offline"), Toy.offline_world).
Proof.
  apply (@Population_init_oracle_failure Toy.offline Toy.generator).
  - reflexivity.
  - reflexivity.
Defined.

Lemma Population_init_discards_a_collection_witness :
  ∃ members w',
    Population_init Toy.oracle Toy.factory (Members [0; 1]) Toy.pair_world
    = (Ok 0, w')
    ∧ members_of w' 0 = Some (Members members)
    ∧ length members = 20
    ∧ (∀ r, r ∈ members → r ∉ [0; 1]).
Proof.
  apply (Population_init_discards_a_collection Toy.oracle Toy.factory [0; 1]
           Toy.pair_world (replicate 20 "net") (replicate 20 "cell")).
  - discriminate.
  - intros r Hr. each_member Hr ltac:(by eexists).
  - reflexivity.
Defined.

Lemma apply_on_individuals_transforms_copies_witness :
  apply_on_individuals 0 (in_place Toy.older) false Toy.spread_world
  = (Ok (Some [3; 4; 5]),
     mkWorld (individuals Toy.spread_world
              ++ [Toy.candidate ["a"] 2 3; Toy.candidate ["b"] 4 5;
                  Toy.candidate ["c"] 6 7])
             (populations Toy.spread_world) (rng Toy.spread_world)).
Proof.
  apply (apply_on_individuals_transforms_copies 0 Toy.older false
           Toy.spread_world (Toy.population_of [0; 1; 2]) [0; 1; 2]
           [Toy.candidate ["a"] 2 2; Toy.candidate ["b"] 4 4;
            Toy.candidate ["c"] 6 6]
           [Toy.candidate ["a"] 2 3; Toy.candidate ["b"] 4 5;
            Toy.candidate ["c"] 6 7]).
  - reflexivity.
  - reflexivity.
  - apply (bool_decide_unpack _). reflexivity.
  - repeat constructor.
  - repeat constructor.
Defined.

Lemma apply_on_individuals_failure_witness :
  let outcome :=
    apply_on_individuals 0 (in_place Toy.picky) true Toy.spread_world in
  is_ok outcome.1 = false
  ∧ populations outcome.2 = populations Toy.spread_world
  ∧ individuals Toy.spread_world `prefix_of` individuals outcome.2.
Proof.
  apply (apply_on_individuals_failure 0 Toy.picky true Toy.spread_world
           (Toy.population_of [0; 1; 2]) [0; 1; 2]
           [Toy.candidate ["a"] 2 2; Toy.candidate ["b"] 4 4;
            Toy.candidate ["c"] 6 6]).
  - reflexivity.
  - reflexivity.
  - apply (bool_decide_unpack _). reflexivity.
  - repeat constructor.
  - intros H. apply Forall_cons in H as [_ H].
    apply Forall_cons in H as [H _]. vm_compute in H. discriminate H.
Defined.

Lemma update_genotype_oracle_failure_witness :
  update_genotype 0 [Sym "?"] Toy.pair_world
  = (Raise (ValueError "unknown architecture"),
     @mkWorld Toy.collaborators Toy.generator
       [with_genotype [Sym "?"] (Toy.candidate ["a"; "b"] 0 0);
        Toy.candidate ["c"; "d"] 0 0] [] 0%Z).
Proof.
  apply (update_genotype_oracle_failure 0 [Sym "?"] Toy.pair_world
           (Toy.candidate ["a"; "b"] 0 0)
           (ValueError "unknown architecture")).
  - reflexivity.
  - reflexivity.
Defined.

Lemma update_ranking_agrees_with_fittest_n_witness :
  ∃ top w',
    fittest_n 0 3 Toy.ranked_world = (Ok top, Toy.ranked_world)
    ∧ update_ranking 0 Toy.ranked_world = (Ok tt, w')
    ∧ (∀ k r, top !! k = Some r → rank_of w' r = inject_Z (Z.of_nat k))
    ∧ (fittest_n 0 1 w').1 = (fittest_n 0 1 Toy.ranked_world).1.
Proof.
  apply (update_ranking_agrees_with_fittest_n 0 1 Toy.ranked_world
           (Toy.population_of [0; 1; 2]) [0; 1; 2]).
  - reflexivity.
  - reflexivity.
  - apply (bool_decide_unpack _). reflexivity.
  - intros r Hr. each_member Hr ltac:(by eexists).
Defined.
